(** * goharmony: the Harmony response parser

    A shallow embedding of the parser of package [goharmony]
    (type [Parser] and its methods [ParseResponse], [ExtractFinalMessage],
    [ExtractFunctionCall], [ExtractJSON], [isValidChannel]) together with
    the pieces of the Go standard library the parser calls: a few functions
    of package [strings] and the leftmost-first matcher of package [regexp].

    Go strings are byte sequences; they are modelled by [string], whose
    characters are the 256 values of [ascii]. *)

From Stdlib Require Import String Ascii List Bool Arith ZArith Lia.
Import ListNotations.
Open Scope list_scope.
Open Scope string_scope.

(** ** Byte strings *)

Fixpoint drop (n : nat) (s : string) : string :=
  match n, s with
  | S k, String _ t => drop k t
  | _, _ => s
  end.

Fixpoint rev (s : string) : string :=
  match s with
  | "" => ""
  | String a t => rev t ++ String a ""
  end.

Fixpoint forallb_string (c : ascii -> bool) (s : string) : bool :=
  match s with
  | "" => true
  | String a t => c a && forallb_string c t
  end.

(** ** Package strings *)

Module strings.

(** [strings.HasPrefix(s, prefix)] *)
Definition HasPrefix (s pre : string) : bool := prefix pre s.

(** [strings.Contains(s, substr)]: some suffix of [s] starts with [substr]. *)
Fixpoint Contains (s substr : string) : bool :=
  prefix substr s ||
  match s with
  | "" => false
  | String _ t => Contains t substr
  end.

(** [strings.Index(s, substr)]: offset of the first occurrence, or -1.
    [indexFrom] carries the offset of the suffix being inspected. *)
Fixpoint indexFrom (i : Z) (s substr : string) : Z :=
  if prefix substr s then i
  else match s with
       | "" => (-1)%Z
       | String _ t => indexFrom (i + 1) t substr
       end.

Definition Index (s substr : string) : Z := indexFrom 0 s substr.

(** [strings.LastIndex(s, substr)]: offset of the last occurrence, or -1. *)
Fixpoint lastIndexFrom (i : Z) (s substr : string) : Z :=
  let here := if prefix substr s then i else (-1)%Z in
  match s with
  | "" => here
  | String _ t =>
      let later := lastIndexFrom (i + 1) t substr in
      if (later =? -1)%Z then here else later
  end.

Definition LastIndex (s substr : string) : Z := lastIndexFrom 0 s substr.

(** The slice expression [s[lo:hi]].  Go panics unless
    [0 <= lo <= hi <= len(s)]; the only slice expression of the parser,
    in [ExtractJSON], is shown to stay within these bounds. *)
Definition slice (s : string) (lo hi : Z) : string :=
  substring (Z.to_nat lo) (Z.to_nat (hi - lo)) s.

(** [strings.Split(s, sep)] for a separator of one byte, the only kind the
    parser uses: the pieces of [s] between the separators, all of them. *)
Fixpoint Split (s : string) (sep : ascii) : list string :=
  match s with
  | "" => [""]
  | String a t =>
      if (a =? sep)%char then "" :: Split t sep
      else match Split t sep with
           | piece :: pieces => String a piece :: pieces
           | [] => [String a ""]
           end
  end.

(** *** White space, as [unicode.IsSpace] sees it through UTF-8

    [strings.TrimSpace] removes leading and trailing runes [r] with
    [unicode.IsSpace(r)].  Those runes are U+0009..U+000D, U+0020, U+0085,
    U+00A0, U+1680, U+2000..U+200A, U+2028, U+2029, U+202F, U+205F and
    U+3000.  UTF-8 is prefix-free and self-synchronising, and an invalid
    byte decodes to U+FFFD (not a space) with width 1, so decoding a space
    rune at the front (or, backwards, at the end) of a string is the same
    as finding one of the encodings below there. *)

Definition byte_in (lo hi : nat) (a : ascii) : bool :=
  (lo <=? nat_of_ascii a)%nat && (nat_of_ascii a <=? hi)%nat.

Definition byte_is (n : nat) (a : ascii) : bool := (nat_of_ascii a =? n)%nat.

(** One-byte spaces: tab, line feed, vertical tab, form feed, carriage
    return, space. *)
Definition space1 (a : ascii) : bool := byte_in 9 13 a || byte_is 32 a.

(** Two-byte spaces: U+0085 = C2 85, U+00A0 = C2 A0. *)
Definition space2 (a b : ascii) : bool :=
  byte_is 194 a && (byte_is 133 b || byte_is 160 b).

(** Three-byte spaces: U+1680 = E1 9A 80, U+2000..U+200A = E2 80 80..8A,
    U+2028 = E2 80 A8, U+2029 = E2 80 A9, U+202F = E2 80 AF,
    U+205F = E2 81 9F, U+3000 = E3 80 80. *)
Definition space3 (a b c : ascii) : bool :=
  (byte_is 225 a && byte_is 154 b && byte_is 128 c) ||
  (byte_is 226 a && byte_is 128 b &&
     (byte_in 128 138 c || byte_is 168 c || byte_is 169 c || byte_is 175 c)) ||
  (byte_is 226 a && byte_is 129 b && byte_is 159 c) ||
  (byte_is 227 a && byte_is 128 b && byte_is 128 c).

Section Trim.
(** The two multi-byte tests, in reading order for the front of a string
    and in reverse order for its end. *)
Variable sp2 : ascii -> ascii -> bool.
Variable sp3 : ascii -> ascii -> ascii -> bool.

(** Does the string start with a space rune? *)
Definition startsWithSpace (s : string) : bool :=
  match s with
  | "" => false
  | String a t =>
      space1 a ||
      match t with
      | "" => false
      | String b u =>
          sp2 a b ||
          match u with
          | "" => false
          | String c _ => sp3 a b c
          end
      end
  end.

(** Remove space runes from the front until a rune is not a space. *)
Fixpoint trimFront (s : string) : string :=
  match s with
  | "" => ""
  | String a t =>
      if space1 a then trimFront t
      else match t with
           | "" => s
           | String b u =>
               if sp2 a b then trimFront u
               else match u with
                    | "" => s
                    | String c v => if sp3 a b c then trimFront v else s
                    end
           end
  end.
End Trim.

Definition TrimLeftSpace (s : string) : string := trimFront space2 space3 s.

Definition TrimRightSpace (s : string) : string :=
  rev (trimFront (fun a b => space2 b a) (fun a b c => space3 c b a) (rev s)).

(** [strings.TrimSpace(s)]; its ASCII fast path computes the same string as
    [TrimFunc(s, unicode.IsSpace)], which trims the left and then the
    right. *)
Definition TrimSpace (s : string) : string := TrimRightSpace (TrimLeftSpace s).

Definition hasLeadingSpace (s : string) : bool := startsWithSpace space2 space3 s.

Definition hasTrailingSpace (s : string) : bool :=
  startsWithSpace (fun a b => space2 b a) (fun a b c => space3 c b a) (rev s).

End strings.

(** ** Package regexp

    The syntax below covers the constructs that occur in the three patterns
    of the parser.  Repetition is only ever applied to a character class
    there.  The matcher works on bytes: every class of the patterns is a
    set of ASCII bytes or its complement is, and the text that follows a
    lazy [.*?] starts with an ASCII byte or is the end of the input, so a
    match cannot stop inside a multi-byte rune. *)

Module regexp.

Inductive regex : Type :=
| Lit (l : string)                 (* literal text *)
| Plus (c : ascii -> bool)         (* c+   greedy *)
| Star (c : ascii -> bool)         (* c*   greedy *)
| LazyStar (c : ascii -> bool)     (* c*?  lazy *)
| Opt (r : regex)                  (* r?   greedy *)
| Cap (n : nat) (r : regex)        (* capturing group number n *)
| Seq (r1 r2 : regex)              (* r1 r2 *)
| Alt (r1 r2 : regex)              (* r1|r2 *)
| Eot.                             (* $ without the m flag: end of text *)

(** Character classes. *)
Definition word (a : ascii) : bool :=                      (* \w *)
  strings.byte_in 48 57 a || strings.byte_in 65 90 a ||
  strings.byte_in 97 122 a || strings.byte_is 95 a.

Definition space (a : ascii) : bool :=                     (* \s *)
  strings.byte_is 9 a || strings.byte_is 10 a || strings.byte_is 12 a ||
  strings.byte_is 13 a || strings.byte_is 32 a.

Definition wordOrDot (a : ascii) : bool :=                 (* [\w.] *)
  word a || strings.byte_is 46 a.

Definition dotAll (_ : ascii) : bool := true.              (* . under (?s) *)

Definition dot (a : ascii) : bool :=                       (* . otherwise *)
  negb (strings.byte_is 10 a).

(** Values of the capturing groups that took part in a match. *)
Definition captures := list (nat * string).

Fixpoint getCap (n : nat) (caps : captures) : string :=
  match caps with
  | [] => ""
  | (k, v) :: rest => if (k =? n)%nat then v else getCap n rest
  end.

(** Ways of cutting a run of class bytes off the front of [s], as pairs
    (run, remainder): every length for [lazySplits], shortest first;
    every length but zero for [plusSplits], longest first. *)
Fixpoint lazySplits (c : ascii -> bool) (s : string) : list (string * string) :=
  ("", s) ::
  match s with
  | "" => []
  | String a t =>
      if c a then map (fun x => (String a (fst x), snd x)) (lazySplits c t)
      else []
  end.

Fixpoint plusSplits (c : ascii -> bool) (s : string) : list (string * string) :=
  match s with
  | "" => []
  | String a t =>
      if c a
      then map (fun x => (String a (fst x), snd x)) (plusSplits c t) ++ [(String a "", t)]
      else []
  end.

Definition starSplits (c : ascii -> bool) (s : string) : list (string * string) :=
  plusSplits c s ++ [("", s)].

(** A way of matching at the front of the text: the text consumed, the
    captures, and the text left. *)
Definition outcome := (string * captures * string)%type.

Definition consumed (o : outcome) : string := fst (fst o).
Definition capsOf (o : outcome) : captures := snd (fst o).
Definition rest (o : outcome) : string := snd o.

(** All ways in which [r] matches at the front of [s], in the order in
    which a backtracking matcher tries them.  Package regexp returns the
    match "that a backtracking engine would have found first": the head of
    this list. *)
Fixpoint run (r : regex) (caps : captures) (s : string) : list outcome :=
  match r with
  | Lit l => if prefix l s then [(l, caps, drop (String.length l) s)] else []
  | Plus c => map (fun x => (fst x, caps, snd x)) (plusSplits c s)
  | Star c => map (fun x => (fst x, caps, snd x)) (starSplits c s)
  | LazyStar c => map (fun x => (fst x, caps, snd x)) (lazySplits c s)
  | Opt r1 => run r1 caps s ++ [("", caps, s)]
  | Cap n r1 =>
      map (fun o => (consumed o, (n, consumed o) :: capsOf o, rest o))
          (run r1 caps s)
  | Seq r1 r2 =>
      flat_map (fun o1 =>
                  map (fun o2 => (consumed o1 ++ consumed o2, capsOf o2, rest o2))
                      (run r2 (capsOf o1) (rest o1)))
               (run r1 caps s)
  | Alt r1 r2 => run r1 caps s ++ run r2 caps s
  | Eot => match s with "" => [("", caps, "")] | _ => [] end
  end.

(** Number of capturing groups ([NumSubexp]). *)
Fixpoint numSubexp (r : regex) : nat :=
  match r with
  | Cap _ r1 => S (numSubexp r1)
  | Opt r1 => numSubexp r1
  | Seq r1 r2 | Alt r1 r2 => numSubexp r1 + numSubexp r2
  | _ => 0
  end.

(** The match anchored at the front of [s], if there is one. *)
Definition matchAt (r : regex) (s : string) : option outcome :=
  hd_error (run r [] s).

(** A match as the [[]string] of the Submatch functions: the whole match,
    then group 1, group 2, ...; a group that took no part is "". *)
Definition submatches (r : regex) (o : outcome) : list string :=
  consumed o :: map (fun n => getCap n (capsOf o)) (seq 1 (numSubexp r)).

(** [FindStringSubmatch]: the leftmost match. *)
Fixpoint FindStringSubmatch (r : regex) (s : string) : option (list string) :=
  match matchAt r s with
  | Some o => Some (submatches r o)
  | None =>
      match s with
      | "" => None
      | String _ t => FindStringSubmatch r t
      end
  end.

(** [FindAllStringSubmatch(s, -1)]: successive non-overlapping matches.
    [skip] is the number of bytes still covered by the previous match and
    [adj] tells that the previous match ended where the search resumes; an
    empty match is dropped there and the search moves on.  (The library
    then steps over one rune; the parser's patterns never match the empty
    string, see [messageRe_nonempty] and its siblings, so that step is not
    exercised.) *)
Fixpoint allMatches (r : regex) (skip : nat) (adj : bool) (s : string)
  {struct s} : list (list string) :=
  match skip with
  | S k =>
      match s with
      | "" => []
      | String _ t => allMatches r k adj t
      end
  | O =>
      match matchAt r s with
      | None =>
          match s with
          | "" => []
          | String _ t => allMatches r 0 false t
          end
      | Some o =>
          match String.length (consumed o) with
          | O =>
              (if adj then [] else [submatches r o]) ++
              match s with
              | "" => []
              | String _ t => allMatches r 0 false t
              end
          | S k =>
              submatches r o ::
              match s with
              | "" => []
              | String _ t => allMatches r k true t
              end
          end
      end
  end.

Definition FindAllStringSubmatch (r : regex) (s : string) : list (list string) :=
  allMatches r 0 false s.

End regexp.

(** ** Package goharmony *)

Import regexp.

Declare Scope regex_scope.
Delimit Scope regex_scope with re.
Infix ">>" := Seq (at level 61, right associativity) : regex_scope.

(** [type Channel string] *)
Definition ChannelT := string.

Definition ChannelAnalysis : ChannelT := "analysis".
Definition ChannelCommentary : ChannelT := "commentary".
Definition ChannelFinal : ChannelT := "final".

Record Message : Type := mkMessage {
  Role : string;
  Channel : ChannelT;
  Content : string;
  To : string;
  IsCall : bool
}.

Record ParserConfig : Type := mkParserConfig {
  StrictMode : bool;
  DefaultRole : string
}.

Record Parser : Type := mkParser {
  messagePattern : regex;
  channelPattern : regex;
  functionPattern : regex;
  config : ParserConfig
}.

Definition DefaultConfig : ParserConfig :=
  {| StrictMode := false; DefaultRole := "assistant" |}.

(** The parts of the message pattern
    [(?s)(?:<\|start\|>)?(\w+)?<\|channel\|>(\w+)(?:\s+to=([\w.]+))?]
    [(?:\s*<\|constrain\|>\w+)?<\|message\|>(.*?)(?:<\|(?:end|call|return)\|>|$)]:
    everything up to and including the message marker, the body, and the
    terminator. *)
Definition messageHead : regex :=
  (Opt (Lit "<|start|>") >>
   Opt (Cap 1 (Plus word)) >>
   Lit "<|channel|>" >>
   Cap 2 (Plus word) >>
   Opt (Plus space >> Lit "to=" >> Cap 3 (Plus wordOrDot)) >>
   Opt (Star space >> Lit "<|constrain|>" >> Plus word) >>
   Lit "<|message|>")%re.

Definition messageBody : regex := Cap 4 (LazyStar dotAll).

Definition messageTerminator : regex :=
  Alt (Lit "<|" >> Alt (Lit "end") (Alt (Lit "call") (Lit "return")) >> Lit "|>")%re
      Eot.

Definition messageRe : regex :=
  (messageHead >> messageBody >> messageTerminator)%re.

(** [<\|channel\|>(\w+)<\|message\|>(.*?)(?:<\|end\|>|$)] *)
Definition channelRe : regex :=
  (Lit "<|channel|>" >> Cap 1 (Plus word) >> Lit "<|message|>" >>
   Cap 2 (LazyStar dot) >> Alt (Lit "<|end|>") Eot)%re.

(** [FUNCTION_CALL:\s*(\w+)\((.*?)\)] *)
Definition functionRe : regex :=
  (Lit "FUNCTION_CALL:" >> Star space >> Cap 1 (Plus word) >> Lit "(" >>
   Cap 2 (LazyStar dot) >> Lit ")")%re.

Definition NewParserWithConfig (config : ParserConfig) : Parser :=
  {| messagePattern := messageRe;
     channelPattern := channelRe;
     functionPattern := functionRe;
     config := config |}.

Definition NewParser : Parser := NewParserWithConfig DefaultConfig.

(** Errors of [ParseResponse], made with
    [fmt.Errorf("invalid channel: %s", msg.Channel)]. *)
Inductive error : Type :=
| InvalidChannel (channel : ChannelT).

Definition Error (e : error) : string :=
  match e with
  | InvalidChannel channel => "invalid channel: " ++ channel
  end.

Definition isValidChannel (channel : ChannelT) : bool :=
  (channel =? ChannelAnalysis) || (channel =? ChannelCommentary) ||
  (channel =? ChannelFinal).

(** [match[i]] *)
Definition sub (mt : list string) (i : nat) : string := nth i mt "".

(** The message built from a match of the message pattern. *)
Definition fullMessage (p : Parser) (mt : list string) : Message :=
  {| Role := if negb (sub mt 1 =? "") then sub mt 1
             else DefaultRole (config p);
     Channel := sub mt 2;
     To := sub mt 3;
     Content := strings.TrimSpace (sub mt 4);
     IsCall := strings.Contains (sub mt 0) "<|call|>" |}.

(** The message built from a match of the channel pattern. *)
Definition simpleMessage (p : Parser) (mt : list string) : Message :=
  {| Role := DefaultRole (config p);
     Channel := sub mt 1;
     Content := strings.TrimSpace (sub mt 2);
     To := "";
     IsCall := false |}.

(** The loop over the matches of a pattern: each message is validated and
    appended, and an invalid channel in strict mode leaves the loop (and
    [ParseResponse]) with the error. *)
Fixpoint collect (p : Parser) (build : Parser -> list string -> Message)
  (matches : list (list string)) (messages : list Message)
  : list Message + error :=
  match matches with
  | [] => inl messages
  | mt :: more =>
      let msg := build p mt in
      if StrictMode (config p) && negb (isValidChannel (Channel msg))
      then inr (InvalidChannel (Channel msg))
      else collect p build more (messages ++ [msg])
  end.

(** The message of the FUNCTION_CALL notation. *)
Definition legacyMessage (p : Parser) (mt : list string) : Message :=
  {| Role := DefaultRole (config p);
     Channel := ChannelCommentary;
     Content := sub mt 2;
     To := "functions." ++ sub mt 1;
     IsCall := true |}.

(** The plain final message made of the whole input. *)
Definition plainMessage (p : Parser) (content : string) : Message :=
  {| Role := DefaultRole (config p);
     Channel := ChannelFinal;
     Content := content;
     To := "";
     IsCall := false |}.

(** The last two steps of [ParseResponse]: the FUNCTION_CALL notation and
    the plain message, each tried while there are no messages. *)
Definition legacyStep (p : Parser) (content : string) (messages : list Message)
  : list Message :=
  if (List.length messages =? 0)%nat && strings.Contains content "FUNCTION_CALL:"
  then match FindStringSubmatch (functionPattern p) content with
       | Some mt => messages ++ [legacyMessage p mt]
       | None => messages
       end
  else messages.

Definition plainStep (p : Parser) (content : string) (messages : list Message)
  : list Message :=
  if (List.length messages =? 0)%nat && negb (StrictMode (config p)) &&
     negb (content =? "")
  then messages ++ [plainMessage p content]
  else messages.

(** [func (p *Parser) ParseResponse(content string) ([]Message, error)] *)
Definition ParseResponse (p : Parser) (content : string)
  : list Message * option error :=
  if content =? "" then ([], None)
  else
    match collect p fullMessage
            (FindAllStringSubmatch (messagePattern p) content) [] with
    | inr err => ([], Some err)
    | inl messages =>
        match (if (List.length messages =? 0)%nat &&
                  strings.Contains content "<|channel|>"
               then collect p simpleMessage
                      (FindAllStringSubmatch (channelPattern p) content)
                      messages
               else inl messages) with
        | inr err => ([], Some err)
        | inl messages =>
            (plainStep p content (legacyStep p content messages), None)
        end
    end.

(** The loop of [ExtractFinalMessage]. *)
Fixpoint firstFinal (messages : list Message) : string :=
  match messages with
  | [] => ""
  | msg :: more =>
      if (Channel msg =? ChannelFinal) && negb (IsCall msg)
      then if negb (strings.HasPrefix (Content msg) "FUNCTION_CALL:")
           then Content msg
           else firstFinal more
      else firstFinal more
  end.

(** What [ExtractFinalMessage] does with the outcome of [ParseResponse]. *)
Definition finalOf (p : Parser) (content : string)
  (parsed : list Message * option error) : string :=
  let (messages, err) := parsed in
  if (match err with Some _ => true | None => false end) ||
     (List.length messages =? 0)%nat
  then if negb (StrictMode (config p)) then content else ""
  else firstFinal messages.

(** [func (p *Parser) ExtractFinalMessage(content string) string] *)
Definition ExtractFinalMessage (p : Parser) (content : string) : string :=
  finalOf p content (ParseResponse p content).

(** The loop of [ExtractFunctionCall]. *)
Fixpoint firstCall (messages : list Message) : option (string * string) :=
  match messages with
  | [] => None
  | msg :: more =>
      if IsCall msg && negb (To msg =? "")
      then let parts := strings.Split (To msg) "." in
           if (2 <=? List.length parts)%nat
           then Some (nth 1 parts "", Content msg)
           else firstCall more
      else firstCall more
  end.

(** [func (p *Parser) ExtractFunctionCall(content string)]
    [(functionName string, args string, found bool)] *)
Definition ExtractFunctionCall (p : Parser) (content : string)
  : string * string * bool :=
  let (messages, err) := ParseResponse p content in
  match err with
  | Some _ => ("", "", false)
  | None =>
      match firstCall messages with
      | Some (name, args) => (name, args, true)
      | None =>
          match FindStringSubmatch (functionPattern p) content with
          | Some mt => (sub mt 1, sub mt 2, true)
          | None => ("", "", false)
          end
      end
  end.

(** [ExtractJSON] hands the text between the braces to [json.Unmarshal],
    which is outside the package: the decoder is a parameter. *)
Section JSON.
Variable JSONObject : Type.
Variable DecodeError : Type.
(** [json.Unmarshal([]byte(s), &result)] with [result] a
    [map[string]interface{}]. *)
Variable Unmarshal : string -> JSONObject + DecodeError.

Inductive jsonError : Type :=
| NoJSONFound                          (* "no JSON found in content" *)
| MalformedJSON (cause : DecodeError). (* "failed to parse JSON: %w" *)

(** [func (p *Parser) ExtractJSON(content string)]
    [(map[string]interface{}, error)] *)
Definition ExtractJSON (p : Parser) (content : string)
  : option JSONObject * option jsonError :=
  let jsonStart := strings.Index content "{" in
  let jsonEnd := strings.LastIndex content "}" in
  if (jsonStart =? -1)%Z || (jsonEnd =? -1)%Z || (jsonEnd <? jsonStart)%Z
  then (None, Some NoJSONFound)
  else
    let jsonStr := strings.slice content jsonStart (jsonEnd + 1) in
    match Unmarshal jsonStr with
    | inr err => (None, Some (MalformedJSON err))
    | inl result => (Some result, None)
    end.
End JSON.

Arguments NoJSONFound {DecodeError}.
Arguments MalformedJSON {DecodeError} cause.


(** The loop of [GetChannelContent]. *)
Fixpoint channelContents (channel : ChannelT) (messages : list Message)
  (results : list string) : list string :=
  match messages with
  | [] => results
  | msg :: more =>
      if Channel msg =? channel
      then channelContents channel more (results ++ [Content msg])
      else channelContents channel more results
  end.

(** [func (p *Parser) GetChannelContent(content string, channel Channel) []string] *)
Definition GetChannelContent (p : Parser) (content : string)
  (channel : ChannelT) : list string :=
  let (messages, err) := ParseResponse p content in
  match err with
  | Some _ => []
  | None => channelContents channel messages []
  end.

(** The loop of [HasChannel]. *)
Fixpoint anyOnChannel (channel : ChannelT) (messages : list Message) : bool :=
  match messages with
  | [] => false
  | msg :: more =>
      if Channel msg =? channel then true else anyOnChannel channel more
  end.

(** [func (p *Parser) HasChannel(content string, channel Channel) bool] *)
Definition HasChannel (p : Parser) (content : string) (channel : ChannelT)
  : bool :=
  let (messages, err) := ParseResponse p content in
  match err with
  | Some _ => false
  | None => anyOnChannel channel messages
  end.

(** ** The streaming example (examples/streaming)

    [main] reads the chunks of [simulateStream] one by one, parses the
    text received so far and prints what is new on the final channel.  The
    chunks arrive in the order of the slice, so the loop over the Go
    channel is a loop over a list; what [fmt.Print] writes inside the loop
    is collected in a string. *)

Definition simulateStream : list string :=
  ["<|channel|>analysis";
   "<|message|>Analyzing the user's request";
   " for information<|end|>" ++ String "010" "";
   "<|channel|>commentary<|message|>";
   "Preparing detailed response";
   "<|end|>" ++ String "010" "<|channel|>";
   "final<|message|>Based on my analysis, ";
   "here's what I found: ";
   "The answer is 42.";
   "<|end|>"].

(** The loop over the messages of one parse: [lastFinalContent] and the
    text printed so far are the state. *)
Fixpoint showFinals (messages : list Message) (st : string * string)
  : string * string :=
  match messages with
  | [] => st
  | msg :: more =>
      let (lastFinalContent, out) := st in
      if Channel msg =? ChannelFinal
      then if negb (Content msg =? lastFinalContent) && negb (Content msg =? "")
           then
             let out1 := if lastFinalContent =? ""
                         then out ++ "User sees: " else out in
             let out2 := if strings.HasPrefix (Content msg) lastFinalContent
                         then out1 ++ drop (String.length lastFinalContent)
                                           (Content msg)
                         else out1 ++ Content msg in
             showFinals more (Content msg, out2)
           else showFinals more st
      else showFinals more st
  end.

(** One round of the loop over the chunks: the buffer grows by the chunk
    and is parsed again as a whole. *)
Definition streamStep (p : Parser) (st : string * (string * string))
  (chunk : string) : string * (string * string) :=
  let (buffer, shown) := st in
  let currentContent := buffer ++ chunk in
  let (messages, err) := ParseResponse p currentContent in
  match err with
  | Some _ => (currentContent, shown)
  | None => (currentContent, showFinals messages shown)
  end.

Definition streamLoop (p : Parser) (chunks : list string)
  : string * (string * string) :=
  fold_left (streamStep p) chunks ("", ("", "")).
(** ** Notions used to state the properties *)

(** A message whose channel is not one of the three known ones. *)
Definition invalid (msg : Message) : bool := negb (isValidChannel (Channel msg)).

(** The channels [ParseResponse] discovers: those of the matches of the
    message pattern or, when there is none and the text has a channel
    marker, those of the matches of the channel pattern. *)
Definition discovered (p : Parser) (content : string) : list ChannelT :=
  match FindAllStringSubmatch (messagePattern p) content with
  | [] =>
      if strings.Contains content "<|channel|>"
      then map (fun mt => sub mt 1)
               (FindAllStringSubmatch (channelPattern p) content)
      else []
  | matches => map (fun mt => sub mt 2) matches
  end.

(** A message [ExtractFinalMessage] may show: on the final channel, not a
    call, and not starting with the FUNCTION_CALL notation. *)
Definition userFacing (msg : Message) : bool :=
  (Channel msg =? ChannelFinal) && negb (IsCall msg) &&
  negb (prefix "FUNCTION_CALL:" (Content msg)).

(** A message [ExtractFunctionCall] takes the call from: a call whose
    target is not empty and has at least two pieces between dots. *)
Definition callable (msg : Message) : bool :=
  IsCall msg && negb (To msg =? "") &&
  (2 <=? List.length (strings.Split (To msg) "."))%nat.

(** No byte of the string is [sep]. *)
Definition free (sep : ascii) (s : string) : bool :=
  forallb_string (fun a => negb (a =? sep)%char) s.

(** The text after the first [sep], as the specification words the name
    of the called function ("the segment after the first separator"). *)
Fixpoint afterFirst (sep : ascii) (s : string) : string :=
  match s with
  | "" => ""
  | String a t => if (a =? sep)%char then t else afterFirst sep t
  end.

(** [ParseResponse] without the loop over the channel pattern. *)
Definition ParseResponse_withoutChannelPattern (p : Parser) (content : string)
  : list Message * option error :=
  if content =? "" then ([], None)
  else
    match collect p fullMessage
            (FindAllStringSubmatch (messagePattern p) content) [] with
    | inr err => ([], Some err)
    | inl messages =>
        (plainStep p content (legacyStep p content messages), None)
    end.

(** No occurrence of [pat] in [x ++ y] starts inside [x]. *)
Fixpoint noStart (pat x y : string) : bool :=
  match x with
  | "" => true
  | String a x' => negb (prefix pat (x ++ y)) && noStart pat x' y
  end.

(** [t] is what is left of [s] after some front part of it. *)
Definition suffixOf (t s : string) : Prop := exists pre, s = pre ++ t.

(** The declarative reading of a pattern: [matches r caps s o] when [r]
    matches the front of [s] with outcome [o], starting from captures
    [caps]. *)
Inductive matches : regex -> captures -> string -> outcome -> Prop :=
| M_Lit l caps t :
    matches (Lit l) caps (l ++ t) (l, caps, t)
| M_Plus c caps w t :
    w <> "" -> forallb_string c w = true ->
    matches (Plus c) caps (w ++ t) (w, caps, t)
| M_Star c caps w t :
    forallb_string c w = true ->
    matches (Star c) caps (w ++ t) (w, caps, t)
| M_LazyStar c caps w t :
    forallb_string c w = true ->
    matches (LazyStar c) caps (w ++ t) (w, caps, t)
| M_OptSome r caps s o :
    matches r caps s o -> matches (Opt r) caps s o
| M_OptNone r caps s :
    matches (Opt r) caps s ("", caps, s)
| M_Cap n r caps s w caps' t :
    matches r caps s (w, caps', t) ->
    matches (Cap n r) caps s (w, (n, w) :: caps', t)
| M_Seq r1 r2 caps s w1 caps1 t1 w2 caps2 t2 :
    matches r1 caps s (w1, caps1, t1) ->
    matches r2 caps1 t1 (w2, caps2, t2) ->
    matches (Seq r1 r2) caps s (w1 ++ w2, caps2, t2)
| M_AltL r1 r2 caps s o :
    matches r1 caps s o -> matches (Alt r1 r2) caps s o
| M_AltR r1 r2 caps s o :
    matches r2 caps s o -> matches (Alt r1 r2) caps s o
| M_Eot caps :
    matches Eot caps "" ("", caps, "").

(** Whatever [r] consumes, no occurrence of [pat] starts inside it. *)
Definition clean (pat : string) (r : regex) : Prop :=
  forall caps s o y, matches r caps s o -> noStart pat (consumed o) y = true.

(** Inversion of every hypothesis that a pattern of known shape matches. *)
Ltac inv_matches :=
  repeat match goal with
         | H : matches (Seq _ _) _ _ _ |- _ => inversion H; subst; clear H
         | H : matches (Lit _) _ _ _ |- _ => inversion H; subst; clear H
         | H : matches (Cap _ _) _ _ _ |- _ => inversion H; subst; clear H
         | H : matches (Plus _) _ _ _ |- _ => inversion H; subst; clear H
         | H : matches (Star _) _ _ _ |- _ => inversion H; subst; clear H
         | H : matches (LazyStar _) _ _ _ |- _ => inversion H; subst; clear H
         | H : matches (Opt _) _ _ _ |- _ => inversion H; subst; clear H
         | H : matches (Alt _ _) _ _ _ |- _ => inversion H; subst; clear H
         | H : matches Eot _ _ _ |- _ => inversion H; subst; clear H
         end.

(** The Harmony text of a message: a start tag and the role unless the
    role is the default one, the channel, the target if there is one, the
    content, and the call or end token. *)
Definition render (cfg : ParserConfig) (m : Message) : string :=
  (if Role m =? DefaultRole cfg then "" else "<|start|>" ++ Role m) ++
  "<|channel|>" ++ Channel m ++
  (if To m =? "" then "" else " to=" ++ To m) ++
  "<|message|>" ++ Content m ++
  (if IsCall m then "<|call|>" else "<|end|>").

(** The messages that text can carry: role, channel and target fit the
    classes of the message pattern, and the content is trimmed and has no
    "<". *)
Definition renderable (cfg : ParserConfig) (m : Message) : bool :=
  ((Role m =? DefaultRole cfg) ||
   (negb (Role m =? "") && forallb_string word (Role m))) &&
  negb (Channel m =? "") && forallb_string word (Channel m) &&
  forallb_string wordOrDot (To m) &&
  free "<" (Content m) &&
  (strings.TrimSpace (Content m) =? Content m).

(** The texts of the messages one after the other, each followed by [sep]. *)
Fixpoint transcript (cfg : ParserConfig) (sep : string) (ms : list Message)
  : string :=
  match ms with
  | [] => ""
  | m :: more => render cfg m ++ sep ++ transcript cfg sep more
  end.

(** The text [t] does not go on with a byte of the class [c]. *)
Definition stops (c : ascii -> bool) (t : string) : bool :=
  match t with
  | "" => true
  | String a _ => negb (c a)
  end.

(** The groups the message pattern finds in the text of a message. *)
Definition groupsOf (cfg : ParserConfig) (m : Message) : list string :=
  [render cfg m;
   if Role m =? DefaultRole cfg then "" else Role m;
   Channel m; To m; Content m].


(** Forget how the parser was made, keeping what its fields are. *)
Ltac made_by cfg p :=
  assert (Hm : messagePattern p = messageRe) by reflexivity;
  assert (Hc : channelPattern p = channelRe) by reflexivity;
  assert (Hf : functionPattern p = functionRe) by reflexivity;
  assert (Hcfg : config p = cfg) by reflexivity;
  clearbody p.

(** Simplify the projections of outcomes and the literal texts. *)
Ltac norm := cbn [capsOf rest consumed fst snd append].

(** * Properties *)

(** ** Byte strings *)

Lemma append_assoc (a b c : string) : (a ++ b) ++ c = a ++ (b ++ c).
Proof. induction a as [|x a IH]; simpl; [reflexivity | now rewrite IH]. Qed.

Lemma append_nil_r (a : string) : a ++ "" = a.
Proof. induction a as [|x a IH]; simpl; [reflexivity | now rewrite IH]. Qed.

Lemma length_append (a b : string) :
  String.length (a ++ b) = String.length a + String.length b.
Proof. induction a as [|x a IH]; simpl; [reflexivity | now rewrite IH]. Qed.

Lemma drop_append (a b : string) : drop (String.length a) (a ++ b) = b.
Proof. induction a as [|x a IH]; simpl; [now destruct b | exact IH]. Qed.

Lemma prefix_append (a b : string) : prefix a (a ++ b) = true.
Proof.
  induction a as [|x a IH]; simpl.
  - now destruct b.
  - destruct (ascii_dec x x); [exact IH | congruence].
Qed.

Lemma prefix_inv (a s : string) :
  prefix a s = true -> s = a ++ drop (String.length a) s.
Proof.
  revert s; induction a as [|x a IH]; intros s H; simpl in *.
  - now destruct s.
  - destruct s as [|y s]; [discriminate|]. simpl in H.
    destruct (ascii_dec x y); [subst | discriminate].
    now rewrite <- (IH s H).
Qed.

Lemma prefix_iff (a s : string) :
  prefix a s = true <-> exists t, s = a ++ t.
Proof.
  split.
  - intros H. eexists. now apply prefix_inv.
  - intros [t ->]. apply prefix_append.
Qed.

Lemma append_eq_nil (a b : string) : a ++ b = "" -> a = "" /\ b = "".
Proof. destruct a; simpl; [auto | discriminate]. Qed.

(** Two ways of cutting the same string: the shorter front is a front of
    the longer one. *)
Lemma append_eq_append (a b c d : string) :
  a ++ b = c ++ d -> String.length a <= String.length c ->
  exists m, c = a ++ m /\ b = m ++ d.
Proof.
  revert c; induction a as [|x a IH]; intros c H L; simpl in *.
  - exists c. auto.
  - destruct c as [|y c]; simpl in *; [lia|].
    injection H as Hx Ht. subst y.
    destruct (IH c Ht ltac:(lia)) as [m [-> ->]].
    exists m. auto.
Qed.

(** ** The validating loop *)

Section Collect.
Variable p : Parser.
Variable build : Parser -> list string -> Message.

Lemma collect_relaxed (matches : list (list string)) (acc : list Message) :
  StrictMode (config p) = false ->
  collect p build matches acc = inl (acc ++ map (build p) matches)%list.
Proof.
  intros R. revert acc.
  induction matches as [|mt more IH]; intros acc; simpl.
  - now rewrite app_nil_r.
  - rewrite R. simpl. rewrite IH, <- app_assoc. reflexivity.
Qed.

Lemma collect_strict_ok (matches : list (list string)) (acc : list Message) :
  StrictMode (config p) = true ->
  find invalid (map (build p) matches) = None ->
  collect p build matches acc = inl (acc ++ map (build p) matches)%list.
Proof.
  intros R. revert acc.
  induction matches as [|mt more IH]; intros acc F; simpl in *.
  - now rewrite app_nil_r.
  - rewrite R. unfold invalid in F at 1.
    destruct (negb (isValidChannel (Channel (build p mt)))); [discriminate|].
    simpl. rewrite (IH _ F), <- app_assoc. reflexivity.
Qed.

Lemma collect_strict_bad (matches : list (list string)) (acc : list Message)
  (bad : Message) :
  StrictMode (config p) = true ->
  find invalid (map (build p) matches) = Some bad ->
  collect p build matches acc = inr (InvalidChannel (Channel bad)).
Proof.
  intros R. revert acc.
  induction matches as [|mt more IH]; intros acc F; simpl in *.
  - discriminate.
  - rewrite R. unfold invalid in F at 1.
    destruct (negb (isValidChannel (Channel (build p mt)))); simpl.
    + now injection F as <-.
    + now apply IH.
Qed.

(** When the loop ends normally it has appended one message per match. *)
Lemma collect_inl (matches : list (list string)) (acc msgs : list Message) :
  collect p build matches acc = inl msgs ->
  msgs = (acc ++ map (build p) matches)%list.
Proof.
  revert acc.
  induction matches as [|mt more IH]; intros acc H; simpl in *.
  - injection H as <-. now rewrite app_nil_r.
  - destruct (StrictMode (config p) && negb (isValidChannel (Channel (build p mt))));
      [discriminate|].
    rewrite (IH _ H), <- app_assoc. reflexivity.
Qed.
End Collect.

(** ** Strict validation (C1) *)

Lemma find_invalid_map (p : Parser) (build : Parser -> list string -> Message)
  (chanOf : list string -> ChannelT) (ms : list (list string)) :
  (forall mt, Channel (build p mt) = chanOf mt) ->
  option_map Channel (find invalid (map (build p) ms)) =
  find (fun c => negb (isValidChannel c)) (map chanOf ms).
Proof.
  intros E. induction ms as [|mt more IH]; simpl; [reflexivity|].
  unfold invalid at 1. rewrite E.
  destruct (negb (isValidChannel (chanOf mt))); simpl; [now rewrite E | exact IH].
Qed.

Lemma collect_strict_first_bad (p : Parser)
  (build : Parser -> list string -> Message)
  (chanOf : list string -> ChannelT) (ms : list (list string))
  (acc : list Message) (ch : ChannelT) :
  (forall mt, Channel (build p mt) = chanOf mt) ->
  StrictMode (config p) = true ->
  In ch (map chanOf ms) -> isValidChannel ch = false ->
  exists bad,
    find (fun c => negb (isValidChannel c)) (map chanOf ms) = Some bad /\
    isValidChannel bad = false /\ In bad (map chanOf ms) /\
    collect p build ms acc = inr (InvalidChannel bad).
Proof.
  intros E S I V.
  destruct (find (fun c => negb (isValidChannel c)) (map chanOf ms)) as [bad|] eqn:F.
  - exists bad. destruct (find_some _ _ F) as [Hin Hbad].
    apply negb_true_iff in Hbad. repeat split; trivial.
    rewrite <- (find_invalid_map p build chanOf ms E) in F.
    destruct (find invalid (map (build p) ms)) as [m|] eqn:Fm; [|discriminate].
    simpl in F. injection F as <-.
    now apply collect_strict_bad.
  - pose proof (find_none _ _ F ch I) as N. simpl in N.
    rewrite V in N. discriminate.
Qed.

Lemma ParseResponse_relaxed (p : Parser) (content : string) :
  StrictMode (config p) = false -> snd (ParseResponse p content) = None.
Proof.
  intros R. unfold ParseResponse.
  destruct (content =? ""); [reflexivity|].
  rewrite (collect_relaxed p fullMessage _ _ R).
  match goal with |- context [if ?c then _ else _] => destruct c end;
    [rewrite (collect_relaxed p simpleMessage _ _ R)|]; reflexivity.
Qed.

(** C1. Under strict validation, as soon as one of the channels discovered
    by the message pattern (or by the channel pattern, when that one is
    consulted) is outside analysis, commentary and final, [ParseResponse]
    returns no message and the error InvalidChannel carrying the first such
    channel; without strict validation it never returns an error. *)
Theorem ParseResponse_invalid_channel (cfg : ParserConfig) (content : string) :
  let p := NewParserWithConfig cfg in
  (StrictMode cfg = true ->
   forall ch, In ch (discovered p content) -> isValidChannel ch = false ->
   exists bad,
     find (fun c => negb (isValidChannel c)) (discovered p content) = Some bad /\
     isValidChannel bad = false /\ In bad (discovered p content) /\
     ParseResponse p content = ([], Some (InvalidChannel bad))) /\
  (StrictMode cfg = false -> snd (ParseResponse p content) = None).
Proof.
  intros p. split.
  - intros S ch I V.
    unfold ParseResponse. destruct (content =? "") eqn:E0.
    + apply String.eqb_eq in E0. subst content. vm_compute in I. contradiction I.
    + unfold discovered in *.
      destruct (FindAllStringSubmatch (messagePattern p) content) as [|mt more] eqn:EM.
      * destruct (strings.Contains content "<|channel|>") eqn:EC; [|contradiction I].
        cbn [collect List.length Nat.eqb andb].
        destruct (collect_strict_first_bad p simpleMessage (fun mt => sub mt 1)
                    (FindAllStringSubmatch (channelPattern p) content) []
                    ch (fun _ => eq_refl) S I V) as [bad [F [Vb [Ib C]]]].
        exists bad. rewrite C. auto.
      * destruct (collect_strict_first_bad p fullMessage (fun mt => sub mt 2)
                    (mt :: more) [] ch (fun _ => eq_refl) S I V)
          as [bad [F [Vb [Ib C]]]].
        exists bad. rewrite C. auto.
  - exact (ParseResponse_relaxed p content).
Qed.

Lemma ParseResponse_invalid_channel_witness :
  exists bad,
    ParseResponse
      (NewParserWithConfig {| StrictMode := true; DefaultRole := "assistant" |})
      "<|channel|>bogus<|message|>x<|end|>" = ([], Some (InvalidChannel bad)).
Proof.
  destruct (ParseResponse_invalid_channel
              {| StrictMode := true; DefaultRole := "assistant" |}
              "<|channel|>bogus<|message|>x<|end|>") as [H _].
  destruct (H eq_refl "bogus") as [bad [_ [_ [_ E]]]].
  - vm_compute. auto.
  - reflexivity.
  - exists bad. exact E.
Defined.

(** ** The final message (C2, C3) *)

Lemma firstFinal_first (l1 l2 : list Message) (m : Message) :
  userFacing m = true ->
  (forall x, In x l1 -> userFacing x = false) ->
  firstFinal (l1 ++ m :: l2) = Content m.
Proof.
  intros U N. induction l1 as [|x l1 IH]; simpl.
  - unfold userFacing, strings.HasPrefix in *.
    destruct (Channel m =? ChannelFinal), (IsCall m),
      (prefix "FUNCTION_CALL:" (Content m)); simpl in *; congruence.
  - pose proof (N x (or_introl eq_refl)) as Nx.
    rewrite IH by (intros y Hy; apply N; now right).
    unfold userFacing, strings.HasPrefix in *.
    destruct (Channel x =? ChannelFinal), (IsCall x),
      (prefix "FUNCTION_CALL:" (Content x)); simpl in *; congruence.
Qed.

Lemma firstFinal_none (l : list Message) :
  (forall x, In x l -> userFacing x = false) -> firstFinal l = "".
Proof.
  induction l as [|x l IH]; intros N; simpl; [reflexivity|].
  pose proof (N x (or_introl eq_refl)) as Nx.
  rewrite IH by (intros y Hy; apply N; now right).
  unfold userFacing, strings.HasPrefix in *.
  destruct (Channel x =? ChannelFinal), (IsCall x),
    (prefix "FUNCTION_CALL:" (Content x)); simpl in *; congruence.
Qed.

Lemma firstFinal_origin (l : list Message) :
  firstFinal l = "" \/
  exists m, In m l /\ userFacing m = true /\ firstFinal l = Content m.
Proof.
  induction l as [|x l IH]; simpl; [now left|].
  destruct (userFacing x) eqn:U.
  - right. exists x. split; [now left|]. split; [exact U|].
    unfold userFacing, strings.HasPrefix in *.
    destruct (Channel x =? ChannelFinal), (IsCall x),
      (prefix "FUNCTION_CALL:" (Content x)); simpl in *; congruence.
  - assert (E : (if (Channel x =? ChannelFinal) && negb (IsCall x)
                 then if negb (strings.HasPrefix (Content x) "FUNCTION_CALL:")
                      then Content x else firstFinal l
                 else firstFinal l) = firstFinal l).
    { unfold userFacing, strings.HasPrefix in *.
      destruct (Channel x =? ChannelFinal), (IsCall x),
        (prefix "FUNCTION_CALL:" (Content x)); simpl in *; congruence. }
    rewrite E. destruct IH as [IH | [m [I [Um Em]]]]; [now left|].
    right. exists m. auto.
Qed.

(** C2. When [ParseResponse] succeeds with at least one message,
    [ExtractFinalMessage] returns the content of the first message, in
    order, that is on the final channel, is not a call and does not start
    with "FUNCTION_CALL:"; it returns "" when there is none; what it
    returns, if not "", is the content of a final-channel message, never
    that of an analysis-channel one. *)
Theorem ExtractFinalMessage_first_final (cfg : ParserConfig)
  (content : string) (msgs : list Message) :
  let p := NewParserWithConfig cfg in
  ParseResponse p content = (msgs, None) -> msgs <> [] ->
  (forall l1 m l2, msgs = (l1 ++ m :: l2)%list -> userFacing m = true ->
     (forall x, In x l1 -> userFacing x = false) ->
     ExtractFinalMessage p content = Content m) /\
  ((forall x, In x msgs -> userFacing x = false) ->
     ExtractFinalMessage p content = "") /\
  (ExtractFinalMessage p content = "" \/
   exists m, In m msgs /\ Channel m = ChannelFinal /\
             Channel m <> ChannelAnalysis /\ IsCall m = false /\
             prefix "FUNCTION_CALL:" (Content m) = false /\
             ExtractFinalMessage p content = Content m).
Proof.
  intros p E NE.
  assert (EF : ExtractFinalMessage p content = firstFinal msgs).
  { unfold ExtractFinalMessage. rewrite E. simpl.
    destruct msgs; [congruence | reflexivity]. }
  rewrite EF. repeat split.
  - intros l1 m l2 -> U N. now apply firstFinal_first.
  - apply firstFinal_none.
  - destruct (firstFinal_origin msgs) as [Z | [m [I [U Em]]]]; [now left|].
    right. exists m. unfold userFacing in U.
    apply andb_true_iff in U as [U U3]. apply andb_true_iff in U as [U1 U2].
    apply String.eqb_eq in U1. apply negb_true_iff in U2, U3.
    repeat split; trivial. rewrite U1. discriminate.
Qed.

Lemma ExtractFinalMessage_first_final_witness :
  ExtractFinalMessage NewParser
    "<|channel|>analysis<|message|>Thinking...<|end|><|channel|>final<|message|>Hello!<|end|>"
  = "Hello!".
Proof.
  pose (a := {| Role := "assistant"; Channel := "analysis";
                Content := "Thinking..."; To := ""; IsCall := false |}).
  pose (f := {| Role := "assistant"; Channel := "final";
                Content := "Hello!"; To := ""; IsCall := false |}).
  destruct (ExtractFinalMessage_first_final DefaultConfig
    "<|channel|>analysis<|message|>Thinking...<|end|><|channel|>final<|message|>Hello!<|end|>"
    [a; f]) as [H _].
  - vm_compute. reflexivity.
  - discriminate.
  - apply (H [a] f []).
    + reflexivity.
    + reflexivity.
    + intros x [<- | []]. reflexivity.
Defined.

(** C3. When [ParseResponse] fails, which only a strict parser does,
    [ExtractFinalMessage] returns ""; the branch taken on a failed
    extraction returns "" for a strict parser and the input unchanged for
    a relaxed one, whatever the input. *)
Theorem ExtractFinalMessage_on_failure (cfg : ParserConfig) (content : string) :
  let p := NewParserWithConfig cfg in
  (forall err, snd (ParseResponse p content) = Some err ->
     StrictMode cfg = true /\ ExtractFinalMessage p content = "") /\
  (forall msgs err,
     finalOf p content (msgs, Some err) =
     if StrictMode cfg then "" else content) /\
  ExtractFinalMessage p content = finalOf p content (ParseResponse p content).
Proof.
  intros p. split; [|split].
  - intros err E.
    destruct (StrictMode cfg) eqn:S.
    + split; [reflexivity|].
      unfold ExtractFinalMessage.
      destruct (ParseResponse p content) as [msgs e]. simpl in E. subst e.
      simpl. unfold p. simpl. now rewrite S.
    + pose proof (ParseResponse_relaxed p content S) as N. congruence.
  - intros msgs err. simpl. now destruct (StrictMode cfg).
  - reflexivity.
Qed.

Lemma ExtractFinalMessage_on_failure_witness :
  ExtractFinalMessage
    (NewParserWithConfig {| StrictMode := true; DefaultRole := "assistant" |})
    "<|channel|>bogus<|message|>x<|end|>" = "".
Proof.
  destruct (ExtractFinalMessage_on_failure
              {| StrictMode := true; DefaultRole := "assistant" |}
              "<|channel|>bogus<|message|>x<|end|>") as [H _].
  apply (H (InvalidChannel "bogus")).
  vm_compute. reflexivity.
Defined.

(** ** Plain text (C5) *)

(** C5. For a non-empty input on which the message pattern, the channel
    pattern (if consulted) and the FUNCTION_CALL pattern (if consulted)
    find nothing, a relaxed parser returns exactly one message, with the
    configured default role, the final channel and the whole input as
    content, and a strict parser returns no message; neither returns an
    error. *)
Theorem ParseResponse_plain_text (cfg : ParserConfig) (content : string) :
  let p := NewParserWithConfig cfg in
  content <> "" ->
  FindAllStringSubmatch (messagePattern p) content = [] ->
  (strings.Contains content "<|channel|>" = false \/
   FindAllStringSubmatch (channelPattern p) content = []) ->
  (strings.Contains content "FUNCTION_CALL:" = false \/
   FindStringSubmatch (functionPattern p) content = None) ->
  ParseResponse p content =
  (if StrictMode cfg then []
   else [{| Role := DefaultRole cfg; Channel := ChannelFinal;
            Content := content; To := ""; IsCall := false |}],
   None).
Proof.
  intros p NE M C F.
  apply String.eqb_neq in NE.
  unfold ParseResponse. rewrite NE, M.
  cbn [collect List.length Nat.eqb andb].
  assert (E : (if strings.Contains content "<|channel|>"
               then collect p simpleMessage
                      (FindAllStringSubmatch (channelPattern p) content) []
               else inl []) = inl []).
  { destruct C as [-> | ->]; [reflexivity|].
    now destruct (strings.Contains content "<|channel|>"). }
  rewrite E.
  assert (L : legacyStep p content [] = []).
  { unfold legacyStep. cbn [List.length Nat.eqb andb].
    destruct F as [-> | ->]; [reflexivity|].
    now destruct (strings.Contains content "FUNCTION_CALL:"). }
  rewrite L. unfold plainStep. cbn [List.length Nat.eqb andb].
  rewrite NE. unfold p. cbn [config NewParserWithConfig].
  destruct (StrictMode cfg); reflexivity.
Qed.

Lemma ParseResponse_plain_text_witness :
  ParseResponse NewParser "Plain text message" =
  ([{| Role := "assistant"; Channel := ChannelFinal;
       Content := "Plain text message"; To := ""; IsCall := false |}], None) /\
  ParseResponse
    (NewParserWithConfig {| StrictMode := true; DefaultRole := "assistant" |})
    "Plain text message" = ([], None).
Proof.
  split.
  - apply (ParseResponse_plain_text DefaultConfig "Plain text message").
    + discriminate.
    + reflexivity.
    + left. reflexivity.
    + left. reflexivity.
  - apply (ParseResponse_plain_text
             {| StrictMode := true; DefaultRole := "assistant" |}
             "Plain text message").
    + discriminate.
    + reflexivity.
    + left. reflexivity.
    + left. reflexivity.
Defined.

(** ** Function calls (C4) *)

(** The first piece of [Split] is free of the separator and is followed,
    if it is not the whole string, by the separator and the pieces of the
    remainder. *)
Lemma Split_first (sep : ascii) (s : string) :
  exists x xs,
    strings.Split s sep = x :: xs /\ free sep x = true /\
    ((xs = [] /\ s = x) \/
     (xs <> [] /\ exists t, s = x ++ String sep t /\ xs = strings.Split t sep)).
Proof.
  induction s as [|a t IH]; simpl.
  - exists "", []. auto.
  - destruct IH as [x [xs [E [F D]]]].
    destruct (a =? sep)%char eqn:A.
    + apply Ascii.eqb_eq in A. subst a.
      exists "", (strings.Split t sep). repeat split.
      right. split; [rewrite E; discriminate|].
      exists t. auto.
    + rewrite E. exists (String a x), xs. repeat split.
      * unfold free in *. simpl. now rewrite A, F.
      * destruct D as [[-> ->] | [N [t' [-> ->]]]]; [now left|].
        right. split; [exact N|]. exists t'. auto.
Qed.

(** With two pieces or more, the second piece is the text between the
    first separator and the next one (or the end). *)
Lemma Split_second (sep : ascii) (s : string) :
  2 <= List.length (strings.Split s sep) ->
  exists ns name more,
    s = ns ++ String sep (name ++ more) /\
    free sep ns = true /\ free sep name = true /\
    (more = "" \/ prefix (String sep "") more = true) /\
    nth 1 (strings.Split s sep) "" = name.
Proof.
  intros L.
  destruct (Split_first sep s) as [x [xs [E [F D]]]].
  rewrite E in *. destruct D as [[-> _] | [_ [t [-> ->]]]]; [simpl in L; lia|].
  destruct (Split_first sep t) as [y [ys [E' [F' D']]]].
  simpl. rewrite E'.
  destruct D' as [[_ ->] | [_ [t' [-> _]]]].
  - exists x, y, "". rewrite append_nil_r. repeat split; auto.
  - exists x, y, (String sep t'). repeat split; trivial.
    right. simpl. destruct (ascii_dec sep sep); [now destruct t' | congruence].
Qed.

Lemma firstCall_first (l1 l2 : list Message) (m : Message) :
  callable m = true ->
  (forall x, In x l1 -> callable x = false) ->
  firstCall (l1 ++ m :: l2) =
  Some (nth 1 (strings.Split (To m) ".") "", Content m).
Proof.
  intros C N. induction l1 as [|x l1 IH]; cbn [app firstCall]; cbv zeta.
  - unfold callable in C.
    apply andb_true_iff in C as [C C3]. rewrite C, C3. reflexivity.
  - pose proof (N x (or_introl eq_refl)) as Nx.
    rewrite IH by (intros y Hy; apply N; now right).
    unfold callable in Nx.
    destruct (IsCall x && negb (To x =? "")); [|reflexivity].
    rewrite andb_true_l in Nx. now rewrite Nx.
Qed.

(** C4, as amended. When [ParseResponse] succeeds, [ExtractFunctionCall]
    takes the first message that is a call with a non-empty target of at
    least two dot-separated pieces, and returns the second piece of the
    target (the text between the first dot and the next dot or the end of
    the target, so "b" for "a.b.c") as the name and the content of the
    message as the arguments. *)
Theorem ExtractFunctionCall_second_piece (cfg : ParserConfig)
  (content : string) (l1 l2 : list Message) (m : Message) :
  let p := NewParserWithConfig cfg in
  ParseResponse p content = ((l1 ++ m :: l2)%list, None) ->
  callable m = true ->
  (forall x, In x l1 -> callable x = false) ->
  exists ns name more,
    To m = ns ++ "." ++ name ++ more /\
    free "." ns = true /\ free "." name = true /\
    (more = "" \/ prefix "." more = true) /\
    ExtractFunctionCall p content = (name, Content m, true).
Proof.
  intros p E C N.
  assert (L : 2 <= List.length (strings.Split (To m) ".")).
  { unfold callable in C. apply andb_true_iff in C as [_ C].
    now apply Nat.leb_le in C. }
  destruct (Split_second "." (To m) L) as [ns [name [more [T [F1 [F2 [M Nth]]]]]]].
  exists ns, name, more. repeat split; trivial.
  unfold ExtractFunctionCall. rewrite E.
  rewrite (firstCall_first l1 l2 m C N), Nth. reflexivity.
Qed.

Lemma ExtractFunctionCall_second_piece_witness :
  exists ns name more,
    "functions.get_weather" = ns ++ "." ++ name ++ more /\
    free "." ns = true /\ free "." name = true /\
    (more = "" \/ prefix "." more = true) /\
    ExtractFunctionCall NewParser
      "<|channel|>commentary to=functions.get_weather<|message|>{}<|call|>"
    = (name, "{}", true).
Proof.
  apply (ExtractFunctionCall_second_piece DefaultConfig
           "<|channel|>commentary to=functions.get_weather<|message|>{}<|call|>"
           [] []
           {| Role := "assistant"; Channel := "commentary"; Content := "{}";
              To := "functions.get_weather"; IsCall := true |}).
  - vm_compute. reflexivity.
  - reflexivity.
  - intros x [].
Defined.

(** C4 as first stated fails: for the target "a.b.c" the name returned is
    "b", not the text "b.c" after the first dot. *)
Lemma ExtractFunctionCall_not_after_first_dot :
  ParseResponse NewParser "<|channel|>commentary to=a.b.c<|message|>x<|call|>"
  = ([{| Role := "assistant"; Channel := "commentary"; Content := "x";
         To := "a.b.c"; IsCall := true |}], None) /\
  afterFirst "." "a.b.c" = "b.c" /\
  ExtractFunctionCall NewParser
    "<|channel|>commentary to=a.b.c<|message|>x<|call|>" = ("b", "x", true) /\
  ExtractFunctionCall NewParser
    "<|channel|>commentary to=a.b.c<|message|>x<|call|>"
  <> (afterFirst "." "a.b.c", "x", true).
Proof.
  repeat split; try (vm_compute; reflexivity).
  vm_compute. discriminate.
Qed.

(** ** Embedded JSON (C6) *)

Lemma prefix_nil (s : string) : prefix "" s = true.
Proof. now destruct s. Qed.

Lemma prefix_char (c a : ascii) (t : string) :
  prefix (String c "") (String a t) = (a =? c)%char.
Proof.
  simpl. destruct (ascii_dec c a) as [<- | N].
  - now rewrite prefix_nil, Ascii.eqb_refl.
  - symmetry. apply Ascii.eqb_neq. congruence.
Qed.

Lemma free_append (c : ascii) (a b : string) :
  free c (a ++ b) = free c a && free c b.
Proof.
  unfold free. induction a as [|x a IH]; simpl; [reflexivity|].
  now rewrite IH, andb_assoc.
Qed.

Lemma indexFrom_free (c : ascii) (s : string) (i : Z) :
  free c s = true -> strings.indexFrom i s (String c "") = (-1)%Z.
Proof.
  revert i. induction s as [|a t IH]; intros i F; [reflexivity|].
  unfold free in F. simpl in F. apply andb_true_iff in F as [A F].
  apply negb_true_iff in A.
  cbn [strings.indexFrom]. rewrite prefix_char, A. now apply IH.
Qed.

Lemma indexFrom_first (c : ascii) (pre post : string) (i : Z) :
  free c pre = true ->
  strings.indexFrom i (pre ++ String c post) (String c "")
  = (i + Z.of_nat (String.length pre))%Z.
Proof.
  revert i. induction pre as [|a t IH]; intros i F.
  - cbn [append strings.indexFrom]. rewrite prefix_char, Ascii.eqb_refl.
    simpl. lia.
  - unfold free in F. simpl in F. apply andb_true_iff in F as [A F].
    apply negb_true_iff in A.
    cbn [append strings.indexFrom]. rewrite prefix_char, A.
    rewrite IH by exact F. cbn [String.length]. lia.
Qed.

Lemma lastIndexFrom_free (c : ascii) (s : string) (i : Z) :
  free c s = true -> strings.lastIndexFrom i s (String c "") = (-1)%Z.
Proof.
  revert i. induction s as [|a t IH]; intros i F; [reflexivity|].
  unfold free in F. simpl in F. apply andb_true_iff in F as [A F].
  apply negb_true_iff in A.
  cbn [strings.lastIndexFrom]. rewrite prefix_char, A, (IH _ F). reflexivity.
Qed.

Lemma lastIndexFrom_last (c : ascii) (pre post : string) (i : Z) :
  (0 <= i)%Z -> free c post = true ->
  strings.lastIndexFrom i (pre ++ String c post) (String c "")
  = (i + Z.of_nat (String.length pre))%Z.
Proof.
  revert i. induction pre as [|a t IH]; intros i P F.
  - cbn [append strings.lastIndexFrom].
    rewrite prefix_char, Ascii.eqb_refl, (lastIndexFrom_free c post _ F).
    simpl. lia.
  - cbn [append strings.lastIndexFrom].
    rewrite IH by (trivial; lia).
    destruct (Z.eqb_spec (i + 1 + Z.of_nat (String.length t)) (-1)); [lia|].
    cbn [String.length]. lia.
Qed.

Lemma first_occurrence (c : ascii) (s : string) :
  free c s = false ->
  exists pre post, s = pre ++ String c post /\ free c pre = true.
Proof.
  induction s as [|a t IH]; intros F; [discriminate|].
  unfold free in F. simpl in F.
  destruct (a =? c)%char eqn:A.
  - apply Ascii.eqb_eq in A. subst a. exists "", t. auto.
  - simpl in F. destruct (IH F) as [pre [post [-> Fp]]].
    exists (String a pre), post. split; [reflexivity|].
    unfold free in *. simpl. now rewrite A.
Qed.

Lemma last_occurrence (c : ascii) (s : string) :
  free c s = false ->
  exists pre post, s = pre ++ String c post /\ free c post = true.
Proof.
  induction s as [|a t IH]; intros F; [discriminate|].
  destruct (free c t) eqn:Ft.
  - unfold free in F. simpl in F. fold (free c t) in F. rewrite Ft in F.
    rewrite andb_true_r in F. apply negb_false_iff in F.
    apply Ascii.eqb_eq in F. subst a. exists "", t. auto.
  - destruct (IH eq_refl) as [pre [post [-> Fp]]].
    exists (String a pre), post. auto.
Qed.

Lemma substring_middle (a b c : string) :
  substring (String.length a) (String.length b) (a ++ b ++ c) = b.
Proof.
  induction a as [|x a IH]; simpl.
  - clear. revert c. induction b as [|y b IH]; intros c; simpl.
    + now destruct c.
    + now rewrite IH.
  - exact IH.
Qed.

Lemma Index_found (c : ascii) (pre post : string) :
  free c pre = true ->
  strings.Index (pre ++ String c post) (String c "") = Z.of_nat (String.length pre).
Proof. intros F. unfold strings.Index. now rewrite indexFrom_first. Qed.

Lemma LastIndex_found (c : ascii) (pre post : string) :
  free c post = true ->
  strings.LastIndex (pre ++ String c post) (String c "")
  = Z.of_nat (String.length pre).
Proof. intros F. unfold strings.LastIndex. rewrite lastIndexFrom_last; trivial; lia. Qed.

(** C6. [ExtractJSON] fails with NoJSONFound exactly when the text has no
    "{", or no "}", or its last "}" comes before its first "{".  Otherwise
    the text is [pre ++ "{" ++ mid ++ "}" ++ post] with no "{" in [pre] and
    no "}" in [post]; the slice handed to the decoder is
    ["{" ++ mid ++ "}"], within the bounds of the text, and the result is
    the decoded object, or MalformedJSON wrapping the decoder's error. *)
Theorem ExtractJSON_spec (JSONObject DecodeError : Type)
  (Unmarshal : string -> JSONObject + DecodeError)
  (p : Parser) (content : string) :
  let r := ExtractJSON JSONObject DecodeError Unmarshal p content in
  (r = (None, Some NoJSONFound) <->
   free "{" content = true \/ free "}" content = true \/
   exists a b c,
     content = a ++ "}" ++ b ++ "{" ++ c /\
     free "}" (b ++ "{" ++ c) = true /\ free "{" (a ++ "}" ++ b) = true) /\
  (r <> (None, Some NoJSONFound) ->
   exists pre mid post,
     content = pre ++ "{" ++ mid ++ "}" ++ post /\
     free "{" pre = true /\ free "}" post = true /\
     (0 <= strings.Index content "{" <= strings.LastIndex content "}" + 1)%Z /\
     (strings.LastIndex content "}" + 1 <= Z.of_nat (String.length content))%Z /\
     strings.slice content (strings.Index content "{")
       (strings.LastIndex content "}" + 1) = "{" ++ mid ++ "}" /\
     r = match Unmarshal ("{" ++ mid ++ "}") with
         | inl result => (Some result, None)
         | inr err => (None, Some (MalformedJSON err))
         end).
Proof.
  intros r. unfold r, ExtractJSON.
  destruct (free "{" content) eqn:F1.
  { assert (I : strings.Index content "{" = (-1)%Z)
      by (apply indexFrom_free; exact F1).
    rewrite I. cbn [Z.eqb orb]. split; [tauto | intros H; exfalso; apply H; reflexivity]. }
  destruct (free "}" content) eqn:F2.
  { assert (L : strings.LastIndex content "}" = (-1)%Z)
      by (apply lastIndexFrom_free; exact F2).
    rewrite L. cbn [Z.eqb]. rewrite orb_true_r. cbn [orb].
    split; [tauto | intros H; exfalso; apply H; reflexivity]. }
  destruct (first_occurrence "{" content F1) as [p1 [q1 [E1 P1]]].
  destruct (last_occurrence "}" content F2) as [p2 [q2 [E2 P2]]].
  assert (I : strings.Index content "{" = Z.of_nat (String.length p1))
    by (rewrite E1 at 1; now apply Index_found).
  assert (L : strings.LastIndex content "}" = Z.of_nat (String.length p2))
    by (rewrite E2 at 1; now apply LastIndex_found).
  rewrite I, L.
  destruct (Z.eqb_spec (Z.of_nat (String.length p1)) (-1)); [lia|].
  destruct (Z.eqb_spec (Z.of_nat (String.length p2)) (-1)); [lia|].
  cbn [orb].
  destruct (Z.ltb_spec (Z.of_nat (String.length p2)) (Z.of_nat (String.length p1)))
    as [LT | GE].
  - (* the last closing brace comes first *)
    split; [|intros H; exfalso; apply H; reflexivity]. split; [|reflexivity]. intros _. right. right.
    assert (E : p2 ++ String "}" q2 = p1 ++ String "{" q1) by congruence.
    destruct (append_eq_append _ _ _ _ E ltac:(lia)) as [m [Em Eq]].
    destruct m as [|h m].
    { rewrite append_nil_r in Em. subst p1. lia. }
    simpl in Eq. injection Eq as <- Eq.
    exists p2, m, q1. repeat split.
    + rewrite E1, Em. rewrite append_assoc. reflexivity.
    + simpl. rewrite <- Eq. exact P2.
    + simpl. rewrite <- Em. exact P1.
  - (* the first opening brace comes first *)
    assert (E : p1 ++ String "{" q1 = p2 ++ String "}" q2) by congruence.
    destruct (append_eq_append _ _ _ _ E ltac:(lia)) as [m [Em Eq]].
    destruct m as [|h m]; [discriminate Eq|].
    simpl in Eq. injection Eq as <- Eq.
    assert (EC : content = p1 ++ String "{" (m ++ String "}" q2))
      by (rewrite E1, Eq; reflexivity).
    assert (SL : strings.slice content (Z.of_nat (String.length p1))
                   (Z.of_nat (String.length p2) + 1)
                 = String "{" (m ++ "}")).
    { unfold strings.slice. rewrite Nat2Z.id.
      replace (Z.to_nat (Z.of_nat (String.length p2) + 1 - Z.of_nat (String.length p1)))
        with (String.length (String "{" (m ++ "}"))).
      - rewrite EC.
        replace (String "{" (m ++ String "}" q2))
          with (String "{" (m ++ "}") ++ q2)
          by (simpl; rewrite append_assoc; reflexivity).
        apply substring_middle.
      - rewrite Em. cbn [String.length]. rewrite !length_append.
        cbn [String.length]. lia. }
    rewrite SL. split.
    + split.
      * intros H. destruct (Unmarshal (String "{" (m ++ "}"))); discriminate H.
      * intros [H | [H | [a [b [c [Ec [Fc Fa]]]]]]]; [congruence | congruence |].
        exfalso.
        assert (I' : strings.Index content "{"
                     = Z.of_nat (String.length (a ++ "}" ++ b))).
        { rewrite Ec at 1.
          replace (a ++ "}" ++ b ++ "{" ++ c) with ((a ++ "}" ++ b) ++ String "{" c)
            by (rewrite !append_assoc; reflexivity).
          now apply Index_found. }
        assert (L' : strings.LastIndex content "}" = Z.of_nat (String.length a)).
        { rewrite Ec at 1. now apply LastIndex_found. }
        rewrite I in I'. rewrite L in L'.
        rewrite length_append in I'. cbn [append String.length] in I'. lia.
    + intros _. exists p1, m, q2.
      assert (LC : String.length content
                   = String.length p1 + S (String.length m + S (String.length q2))).
      { rewrite EC, length_append. cbn [String.length].
        rewrite length_append. reflexivity. }
      assert (LP : String.length p2 = String.length p1 + S (String.length m)).
      { rewrite Em, length_append. reflexivity. }
      repeat split; trivial; lia.
Qed.

Lemma ExtractJSON_spec_witness :
  exists mid,
    ExtractJSON unit unit (fun _ => inl tt) NewParser "Some text {k} more text"
    = match (fun _ : string => @inl unit unit tt) ("{" ++ mid ++ "}") with
      | inl result => (Some result, None)
      | inr err => (None, Some (MalformedJSON err))
      end.
Proof.
  destruct (ExtractJSON_spec unit unit (fun _ => inl tt) NewParser
              "Some text {k} more text") as [_ H].
  destruct H as [pre [mid [post [_ [_ [_ [_ [_ [_ E]]]]]]]]].
  - vm_compute. discriminate.
  - exists mid. exact E.
Defined.

(** ** Trimmed content (C7) *)

Lemma rev_append (a b : string) : rev (a ++ b) = rev b ++ rev a.
Proof.
  induction a as [|x a IH]; simpl.
  - now rewrite append_nil_r.
  - now rewrite IH, append_assoc.
Qed.

Lemma rev_involutive (s : string) : rev (rev s) = s.
Proof.
  induction s as [|x s IH]; simpl; [reflexivity|].
  now rewrite rev_append, IH.
Qed.

Section TrimFacts.
Variable sp2 : ascii -> ascii -> bool.
Variable sp3 : ascii -> ascii -> ascii -> bool.

(** [trimFront] calls itself one, two or three bytes further on, so the
    induction is on a bound of the length. *)
Lemma trimFront_bounded (n : nat) (s : string) :
  String.length s <= n ->
  strings.startsWithSpace sp2 sp3 (strings.trimFront sp2 sp3 s) = false /\
  exists pre, s = pre ++ strings.trimFront sp2 sp3 s.
Proof.
  revert s. induction n as [|n IH]; intros s L.
  - destruct s; [|simpl in L; lia]. split; [reflexivity | now exists ""].
  - destruct s as [|a t]; [split; [reflexivity | now exists ""]|].
    simpl in L. cbn [strings.trimFront].
    destruct (strings.space1 a) eqn:S1.
    { destruct (IH t ltac:(lia)) as [N [pre E]]. split; [exact N|].
      exists (String a pre). simpl. now rewrite <- E. }
    destruct t as [|b u].
    { split; [simpl; now rewrite S1 | now exists ""]. }
    simpl in L.
    destruct (sp2 a b) eqn:S2.
    { destruct (IH u ltac:(lia)) as [N [pre E]]. split; [exact N|].
      exists (String a (String b pre)). simpl. now rewrite <- E. }
    destruct u as [|c v].
    { split; [simpl; now rewrite S1, S2 | now exists ""]. }
    simpl in L.
    destruct (sp3 a b c) eqn:S3.
    { destruct (IH v ltac:(lia)) as [N [pre E]]. split; [exact N|].
      exists (String a (String b (String c pre))). simpl. now rewrite <- E. }
    split; [simpl; now rewrite S1, S2, S3 | now exists ""].
Qed.

Lemma trimFront_clean (s : string) :
  strings.startsWithSpace sp2 sp3 (strings.trimFront sp2 sp3 s) = false.
Proof. exact (proj1 (trimFront_bounded (String.length s) s (le_n _))). Qed.

Lemma trimFront_suffix (s : string) :
  exists pre, s = pre ++ strings.trimFront sp2 sp3 s.
Proof. exact (proj2 (trimFront_bounded (String.length s) s (le_n _))). Qed.

(** A space rune at the front of a string is at the front of every
    extension of it. *)
Lemma startsWithSpace_append (a b : string) :
  strings.startsWithSpace sp2 sp3 a = true ->
  strings.startsWithSpace sp2 sp3 (a ++ b) = true.
Proof.
  destruct a as [|a1 [|a2 [|a3 a]]]; simpl; intros H;
    try discriminate;
    destruct (strings.space1 a1); simpl in *; trivial;
    try discriminate;
    destruct (sp2 a1 a2); simpl in *; trivial; discriminate.
Qed.
End TrimFacts.

Lemma TrimSpace_trimmed (s : string) :
  strings.hasLeadingSpace (strings.TrimSpace s) = false /\
  strings.hasTrailingSpace (strings.TrimSpace s) = false.
Proof.
  unfold strings.hasLeadingSpace, strings.hasTrailingSpace, strings.TrimSpace,
    strings.TrimRightSpace, strings.TrimLeftSpace.
  set (x := strings.trimFront strings.space2 strings.space3 s).
  set (sp2' := fun a b => strings.space2 b a).
  set (sp3' := fun a b c => strings.space3 c b a).
  split.
  - destruct (trimFront_suffix sp2' sp3' (rev x)) as [pre E].
    destruct (strings.startsWithSpace strings.space2 strings.space3
                (rev (strings.trimFront sp2' sp3' (rev x)))) eqn:S; [|reflexivity].
    apply (startsWithSpace_append _ _ _ (rev pre)) in S.
    rewrite <- rev_append, <- E, rev_involutive in S.
    unfold x in S. now rewrite trimFront_clean in S.
  - rewrite rev_involutive. apply trimFront_clean.
Qed.

Lemma plainStep_legacyStep_nonempty (p : Parser) (content : string)
  (m : Message) (msgs : list Message) :
  plainStep p content (legacyStep p content (m :: msgs)) = m :: msgs.
Proof. reflexivity. Qed.

(** C7, as amended. The content of every message that [ParseResponse]
    builds from a match of the message pattern or of the channel pattern
    has no white space at its front or at its end; every message it
    returns is such a message, unless the result is the single message of
    the FUNCTION_CALL notation or the single plain message, whose content
    is kept as found. *)
Theorem ParseResponse_content_trimmed (cfg : ParserConfig)
  (content : string) (m : Message) :
  let p := NewParserWithConfig cfg in
  In m (fst (ParseResponse p content)) ->
  (strings.hasLeadingSpace (Content m) = false /\
   strings.hasTrailingSpace (Content m) = false) \/
  (exists mt,
     FindStringSubmatch (functionPattern p) content = Some mt /\
     fst (ParseResponse p content) = [legacyMessage p mt]) \/
  fst (ParseResponse p content) = [plainMessage p content].
Proof.
  intros p. unfold ParseResponse.
  destruct (content =? ""); [intros []|].
  destruct (collect p fullMessage _ []) as [msgs1 | err] eqn:C1; [|intros []].
  apply collect_inl in C1. simpl in C1.
  match goal with
  | |- context [match ?c with inl _ => _ | inr _ => _ end] =>
      destruct c as [msgs2 | err] eqn:C2
  end; [|intros []].
  assert (T : forall x, In x msgs2 ->
                strings.hasLeadingSpace (Content x) = false /\
                strings.hasTrailingSpace (Content x) = false).
  { intros x I.
    assert (I' : In x msgs1 \/
                 In x (map (simpleMessage p)
                         (FindAllStringSubmatch (channelPattern p) content))).
    { destruct ((List.length msgs1 =? 0)%nat &&
                strings.Contains content "<|channel|>").
      - apply collect_inl in C2. rewrite C2 in I. now apply in_app_or.
      - injection C2 as <-. now left. }
    destruct I' as [I' | I'].
    - rewrite C1 in I'. apply in_map_iff in I' as [mt [<- _]].
      apply TrimSpace_trimmed.
    - apply in_map_iff in I' as [mt [<- _]]. apply TrimSpace_trimmed. }
  cbn [fst]. destruct msgs2 as [|m2 msgs2].
  - unfold legacyStep. cbn [List.length Nat.eqb andb].
    destruct (strings.Contains content "FUNCTION_CALL:").
    + destruct (FindStringSubmatch (functionPattern p) content) as [mt|] eqn:F.
      * intros _. right. left. exists mt. split; reflexivity.
      * unfold plainStep. cbn [List.length Nat.eqb andb app].
        destruct (negb (StrictMode (config p)) && negb (content =? ""));
          [intros _; right; right; reflexivity | intros []].
    + unfold plainStep. cbn [List.length Nat.eqb andb app].
      destruct (negb (StrictMode (config p)) && negb (content =? ""));
        [intros _; right; right; reflexivity | intros []].
  - rewrite plainStep_legacyStep_nonempty. intros I. left. now apply T.
Qed.

Lemma ParseResponse_content_trimmed_witness :
  strings.hasLeadingSpace "body" = false /\
  strings.hasTrailingSpace "body" = false.
Proof.
  destruct (ParseResponse_content_trimmed DefaultConfig
              "<|channel|>final<|message|>  body <|end|>"
              {| Role := "assistant"; Channel := "final"; Content := "body";
                 To := ""; IsCall := false |}) as [H | [[mt [_ H]] | H]].
  - vm_compute. left. reflexivity.
  - exact H.
  - vm_compute in H. discriminate H.
  - vm_compute in H. discriminate H.
Defined.

(** C7 as first stated fails: the plain message keeps the white space of
    the input, and the message of the FUNCTION_CALL notation that of the
    arguments. *)
Lemma ParseResponse_content_untrimmed :
  ParseResponse NewParser " hi "
  = ([{| Role := "assistant"; Channel := "final"; Content := " hi ";
         To := ""; IsCall := false |}], None) /\
  strings.hasLeadingSpace " hi " = true /\
  strings.hasTrailingSpace " hi " = true /\
  ParseResponse NewParser "FUNCTION_CALL: f( x )"
  = ([{| Role := "assistant"; Channel := "commentary"; Content := " x ";
         To := "functions.f"; IsCall := true |}], None).
Proof. repeat split; vm_compute; reflexivity. Qed.

(** ** The matcher and the declarative reading of patterns *)

Lemma lazySplits_In (c : ascii -> bool) (s w t : string) :
  In (w, t) (lazySplits c s) <-> s = w ++ t /\ forallb_string c w = true.
Proof.
  revert w. induction s as [|a s IH]; intros w; simpl.
  - split.
    + intros [E | []]. injection E as <- <-. auto.
    + intros [E _]. symmetry in E. apply append_eq_nil in E as [-> ->]. now left.
  - split.
    + intros [E | I].
      * injection E as <- <-. auto.
      * destruct (c a) eqn:Ca; [|contradiction I].
        apply in_map_iff in I as [[w' t'] [E I]]. simpl in E.
        injection E as <- <-. apply IH in I as [-> F].
        simpl. now rewrite Ca.
    + intros [E F]. destruct w as [|x w]; simpl in *.
      * left. now rewrite E.
      * right. injection E as <- ->.
        apply andb_true_iff in F as [Ca F]. rewrite Ca.
        apply in_map_iff. exists (w, t). split; [reflexivity|].
        apply IH. auto.
Qed.

Lemma plusSplits_In (c : ascii -> bool) (s w t : string) :
  In (w, t) (plusSplits c s) <->
  s = w ++ t /\ forallb_string c w = true /\ w <> "".
Proof.
  revert w. induction s as [|a s IH]; intros w; simpl.
  - split; [intros [] |].
    intros [E [_ N]]. symmetry in E. apply append_eq_nil in E as [-> _].
    now contradiction N.
  - split.
    + intros I. destruct (c a) eqn:Ca; [|contradiction I].
      apply in_app_or in I as [I | [E | []]].
      * apply in_map_iff in I as [[w' t'] [E I]]. simpl in E.
        injection E as <- <-. apply IH in I as [-> [F N]].
        simpl. rewrite Ca. repeat split; trivial. discriminate.
      * injection E as <- <-. simpl. rewrite Ca. repeat split. discriminate.
    + intros [E [F N]]. destruct w as [|x w]; [now contradiction N|].
      simpl in *. injection E as <- ->.
      apply andb_true_iff in F as [Ca F]. rewrite Ca.
      apply in_or_app. destruct w as [|y w].
      * right. now left.
      * left. apply in_map_iff. exists (String y w, t). split; [reflexivity|].
        apply IH. repeat split; trivial. discriminate.
Qed.

Lemma starSplits_In (c : ascii -> bool) (s w t : string) :
  In (w, t) (starSplits c s) <-> s = w ++ t /\ forallb_string c w = true.
Proof.
  unfold starSplits. rewrite in_app_iff, plusSplits_In. simpl. split.
  - intros [[E [F _]] | [E | []]]; [auto|]. injection E as <- <-. auto.
  - intros [E F]. destruct w as [|x w].
    + right. left. now rewrite E.
    + left. repeat split; trivial. discriminate.
Qed.

(** Every outcome the matcher lists is a match in the declarative sense. *)
Lemma run_matches (r : regex) :
  forall caps s o, In o (run r caps s) -> matches r caps s o.
Proof.
  induction r as [l | c | c | c | r IH | n r IH | r1 IH1 r2 IH2 | r1 IH1 r2 IH2 | ];
    intros caps s o I; simpl in I.
  - destruct (prefix l s) eqn:P; [|contradiction I].
    destruct I as [<- | []]. rewrite (prefix_inv _ _ P) at 1. constructor.
  - apply in_map_iff in I as [[w t] [<- I]].
    apply plusSplits_In in I as [-> [F N]]. now constructor.
  - apply in_map_iff in I as [[w t] [<- I]].
    apply starSplits_In in I as [-> F]. now constructor.
  - apply in_map_iff in I as [[w t] [<- I]].
    apply lazySplits_In in I as [-> F]. now constructor.
  - apply in_app_or in I as [I | [<- | []]].
    + apply M_OptSome. now apply IH.
    + apply M_OptNone.
  - apply in_map_iff in I as [[[w caps'] t] [<- I]].
    apply M_Cap. now apply IH.
  - apply in_flat_map in I as [[[w1 caps1] t1] [I1 I]].
    apply in_map_iff in I as [[[w2 caps2] t2] [<- I2]].
    eapply M_Seq; [apply IH1, I1 | apply IH2, I2].
  - apply in_app_or in I as [I | I].
    + apply M_AltL. now apply IH1.
    + apply M_AltR. now apply IH2.
  - destruct s; [|contradiction I]. destruct I as [<- | []]. constructor.
Qed.

(** Every match in the declarative sense is among the outcomes the matcher
    lists. *)
Lemma matches_run (r : regex) (caps : captures) (s : string) (o : outcome) :
  matches r caps s o -> In o (run r caps s).
Proof.
  induction 1; simpl.
  - rewrite prefix_append, drop_append. now left.
  - apply in_map_iff. exists (w, t). split; [reflexivity|].
    apply plusSplits_In. auto.
  - apply in_map_iff. exists (w, t). split; [reflexivity|].
    apply starSplits_In. auto.
  - apply in_map_iff. exists (w, t). split; [reflexivity|].
    apply lazySplits_In. auto.
  - apply in_or_app. now left.
  - apply in_or_app. right. now left.
  - apply in_map_iff. exists (w, caps', t). auto.
  - apply in_flat_map. exists (w1, caps1, t1). split; [assumption|].
    apply in_map_iff. exists (w2, caps2, t2). auto.
  - apply in_or_app. now left.
  - apply in_or_app. now right.
  - now left.
Qed.

(** What is consumed and what is left make up the text. *)
Lemma matches_split (r : regex) (caps : captures) (s : string) (o : outcome) :
  matches r caps s o -> s = consumed o ++ rest o.
Proof.
  induction 1; unfold consumed, rest in *; simpl in *; trivial.
  rewrite append_assoc. congruence.
Qed.

Lemma matchAt_matches (r : regex) (s : string) (o : outcome) :
  matchAt r s = Some o -> matches r [] s o.
Proof.
  unfold matchAt. intros H. apply run_matches.
  destruct (run r [] s); [discriminate|]. injection H as ->. now left.
Qed.

Lemma matches_matchAt (r : regex) (s : string) (o : outcome) :
  matches r [] s o -> matchAt r s <> None.
Proof.
  intros H. apply matches_run in H. unfold matchAt.
  destruct (run r [] s); [contradiction H | discriminate].
Qed.

(** ** Successive matches *)

Lemma suffixOf_refl (s : string) : suffixOf s s.
Proof. now exists "". Qed.

Lemma suffixOf_tail (t s : string) (a : ascii) :
  suffixOf t s -> suffixOf t (String a s).
Proof. intros [pre ->]. now exists (String a pre). Qed.

Lemma suffixOf_inv (t s : string) (a : ascii) :
  suffixOf t (String a s) -> t = String a s \/ suffixOf t s.
Proof.
  intros [[|x pre] E]; simpl in E.
  - now left.
  - right. injection E as _ ->. now exists pre.
Qed.

Lemma suffixOf_nil (t : string) : suffixOf t "" -> t = "".
Proof.
  intros [pre E]. symmetry in E. now apply append_eq_nil in E as [_ ->].
Qed.

(** Every match delivered is the first outcome of the pattern at some
    place of the text. *)
Lemma allMatches_In (r : regex) (mt : list string) (s : string) :
  forall skip adj,
  In mt (allMatches r skip adj s) ->
  exists t o, suffixOf t s /\ matchAt r t = Some o /\ mt = submatches r o.
Proof.
  induction s as [|a s IH]; intros skip adj I.
  - destruct skip; [|contradiction I]. cbn [allMatches] in I.
    destruct (matchAt r "") as [o|] eqn:M; [|contradiction I].
    assert (I' : In mt [submatches r o]).
    { destruct (String.length (consumed o)); [destruct adj|];
        cbn [app In] in I |- *; tauto. }
    destruct I' as [<- | []].
    exists "", o. split; [apply suffixOf_refl | auto].
  - assert (T : forall k b, In mt (allMatches r k b s) ->
                exists t o, suffixOf t (String a s) /\
                            matchAt r t = Some o /\ mt = submatches r o).
    { intros k b I'. destruct (IH k b I') as [t [o [S [M E]]]].
      exists t, o. split; [now apply suffixOf_tail | auto]. }
    destruct skip; cbn [allMatches] in I; [|now apply (T skip adj)].
    destruct (matchAt r (String a s)) as [o|] eqn:M; [|now apply (T 0 false)].
    assert (I' : mt = submatches r o \/
                 exists k b, In mt (allMatches r k b s)).
    { destruct (String.length (consumed o)) as [|k].
      - apply in_app_or in I as [I | I].
        + left. destruct adj; [contradiction I|].
          destruct I as [<- | []]. reflexivity.
        + right. eauto.
      - destruct I as [<- | I]; [now left | right; eauto]. }
    destruct I' as [-> | [k [b I']]]; [|now apply (T k b)].
    exists (String a s), o. split; [apply suffixOf_refl | auto].
Qed.

(** When nothing is delivered the pattern matches nowhere in the text. *)
Lemma FindAll_nil (r : regex) (s : string) :
  FindAllStringSubmatch r s = [] ->
  forall t, suffixOf t s -> matchAt r t = None.
Proof.
  unfold FindAllStringSubmatch.
  induction s as [|a s IH]; intros E t S; cbn [allMatches] in E.
  - apply suffixOf_nil in S. subst t.
    destruct (matchAt r "") as [o|]; [|reflexivity].
    destruct (String.length (consumed o)); discriminate E.
  - destruct (matchAt r (String a s)) as [o|] eqn:M.
    + destruct (String.length (consumed o)); discriminate E.
    + apply suffixOf_inv in S as [-> | S]; [exact M | now apply IH].
Qed.

Lemma FindAll_nonempty (r : regex) (s : string) :
  FindAllStringSubmatch r s <> [] ->
  exists t o, suffixOf t s /\ matchAt r t = Some o.
Proof.
  intros N. destruct (FindAllStringSubmatch r s) as [|mt more] eqn:E;
    [now contradiction N|].
  destruct (allMatches_In r mt s 0 false) as [t [o [S [M _]]]].
  - unfold FindAllStringSubmatch in E. rewrite E. now left.
  - eauto.
Qed.

(** ** The patterns of the parser do not match the empty string *)

Lemma nonempty_lit (l : string) :
  l <> "" ->
  forall caps s o, matches (Lit l) caps s o -> consumed o <> "".
Proof. intros N caps s o M. inversion M; subst. exact N. Qed.

Lemma nonempty_seq_l (r1 r2 : regex) :
  (forall caps s o, matches r1 caps s o -> consumed o <> "") ->
  forall caps s o, matches (Seq r1 r2) caps s o -> consumed o <> "".
Proof.
  intros N caps s o M. inversion M; subst. unfold consumed. cbn [fst].
  intros E. apply append_eq_nil in E as [E _].
  match goal with H : matches r1 _ _ _ |- _ => exact (N _ _ _ H E) end.
Qed.

Lemma nonempty_seq_r (r1 r2 : regex) :
  (forall caps s o, matches r2 caps s o -> consumed o <> "") ->
  forall caps s o, matches (Seq r1 r2) caps s o -> consumed o <> "".
Proof.
  intros N caps s o M. inversion M; subst. unfold consumed. cbn [fst].
  intros E. apply append_eq_nil in E as [_ E].
  match goal with H : matches r2 _ _ _ |- _ => exact (N _ _ _ H E) end.
Qed.

Lemma messageRe_nonempty (caps : captures) (s : string) (o : outcome) :
  matches messageRe caps s o -> consumed o <> "".
Proof.
  revert caps s o. unfold messageRe, messageHead.
  apply nonempty_seq_l, nonempty_seq_r, nonempty_seq_r, nonempty_seq_l,
    nonempty_lit.
  discriminate.
Qed.

Lemma channelRe_nonempty (caps : captures) (s : string) (o : outcome) :
  matches channelRe caps s o -> consumed o <> "".
Proof.
  revert caps s o. unfold channelRe.
  apply nonempty_seq_l, nonempty_lit. discriminate.
Qed.

Lemma functionRe_nonempty (caps : captures) (s : string) (o : outcome) :
  matches functionRe caps s o -> consumed o <> "".
Proof.
  revert caps s o. unfold functionRe.
  apply nonempty_seq_l, nonempty_lit. discriminate.
Qed.

(** ** The channel pattern is never needed (C10) *)

(** A match of the channel pattern starts with a channel marker, a word
    and a message marker. *)
Lemma channelRe_front (caps : captures) (t : string) (o : outcome) :
  matches channelRe caps t o ->
  exists w u, t = "<|channel|>" ++ w ++ "<|message|>" ++ u /\
              w <> "" /\ forallb_string word w = true.
Proof.
  unfold channelRe. intros H.
  inv_matches; do 2 eexists; (split; [reflexivity | auto]).
Qed.

(** Where a channel marker, a word and a message marker stand, the message
    pattern matches: no start tag, no role, no target, no constraint, and
    a body that runs to the end of the text. *)
Lemma messageRe_front (w u : string) :
  w <> "" -> forallb_string word w = true ->
  exists o, matches messageRe [] ("<|channel|>" ++ w ++ "<|message|>" ++ u) o.
Proof.
  intros N F.
  assert (D : forallb_string dotAll u = true) by (induction u; auto).
  rewrite <- (append_nil_r u).
  eexists. unfold messageRe, messageHead, messageBody, messageTerminator.
  eapply M_Seq.
  - eapply M_Seq; [apply M_OptNone|].
    eapply M_Seq; [apply M_OptNone|].
    eapply M_Seq; [apply (M_Lit "<|channel|>")|].
    eapply M_Seq; [apply M_Cap, M_Plus; eassumption|].
    eapply M_Seq; [apply M_OptNone|].
    eapply M_Seq; [apply M_OptNone|].
    apply (M_Lit "<|message|>").
  - eapply M_Seq; [apply M_Cap, M_LazyStar; exact D|].
    apply M_AltR, M_Eot.
Qed.

Lemma channelRe_needs_messageRe (content : string) :
  FindAllStringSubmatch channelRe content <> [] ->
  FindAllStringSubmatch messageRe content <> [].
Proof.
  intros N E.
  destruct (FindAll_nonempty _ _ N) as [t [o [S M]]].
  apply matchAt_matches, channelRe_front in M as [w [u [-> [Nw F]]]].
  destruct (messageRe_front w u Nw F) as [o' M'].
  apply matches_matchAt in M'. apply M'.
  exact (FindAll_nil _ _ E _ S).
Qed.

(** C10. Whenever the channel pattern has a match in a text, so has the
    message pattern; hence the loop over the matches of the channel
    pattern is entered only when there is none, it builds no message, and
    [ParseResponse] returns what it returns without that loop. *)
Theorem channelPattern_unreachable (cfg : ParserConfig) (content : string) :
  let p := NewParserWithConfig cfg in
  (FindAllStringSubmatch (channelPattern p) content <> [] ->
   FindAllStringSubmatch (messagePattern p) content <> []) /\
  (collect p fullMessage
     (FindAllStringSubmatch (messagePattern p) content) [] = inl [] ->
   FindAllStringSubmatch (channelPattern p) content = []) /\
  ParseResponse p content = ParseResponse_withoutChannelPattern p content.
Proof.
  intros p.
  assert (A : FindAllStringSubmatch (channelPattern p) content <> [] ->
              FindAllStringSubmatch (messagePattern p) content <> [])
    by exact (channelRe_needs_messageRe content).
  assert (B : collect p fullMessage
                (FindAllStringSubmatch (messagePattern p) content) [] = inl [] ->
              FindAllStringSubmatch (channelPattern p) content = []).
  { intros C. apply collect_inl in C. cbn [app] in C.
    destruct (FindAllStringSubmatch (channelPattern p) content) eqn:E;
      [reflexivity|].
    exfalso. apply A; [discriminate|].
    now destruct (FindAllStringSubmatch (messagePattern p) content). }
  repeat split; trivial.
  unfold ParseResponse, ParseResponse_withoutChannelPattern.
  destruct (content =? ""); [reflexivity|].
  destruct (collect p fullMessage _ []) as [[|m msgs] | err] eqn:C;
    [|reflexivity | reflexivity].
  cbn [List.length Nat.eqb andb].
  destruct (strings.Contains content "<|channel|>"); [|reflexivity].
  rewrite (B eq_refl). reflexivity.
Qed.

Lemma channelPattern_unreachable_witness :
  FindAllStringSubmatch messageRe "<|channel|>final<|message|>hi" <> [] /\
  FindAllStringSubmatch channelRe "plain" = [].
Proof.
  destruct (channelPattern_unreachable DefaultConfig
              "<|channel|>final<|message|>hi") as [H _].
  destruct (channelPattern_unreachable DefaultConfig "plain") as [_ [H' _]].
  split.
  - apply H. vm_compute. discriminate.
  - apply H'. vm_compute. reflexivity.
Defined.

(** ** Calls and terminators (C8) *)

Lemma Contains_unfold (s substr : string) :
  strings.Contains s substr =
  prefix substr s ||
  match s with "" => false | String _ t => strings.Contains t substr end.
Proof. now destruct s. Qed.

Lemma Contains_skip (pat x y : string) :
  noStart pat x y = true ->
  strings.Contains (x ++ y) pat = strings.Contains y pat.
Proof.
  induction x as [|a x IH]; intros N; [reflexivity|].
  cbn [noStart] in N. apply andb_true_iff in N as [P N].
  apply negb_true_iff in P.
  rewrite Contains_unfold, P. cbn [append orb]. now apply IH.
Qed.

Lemma noStart_append (pat x1 x2 y : string) :
  noStart pat (x1 ++ x2) y = noStart pat x1 (x2 ++ y) && noStart pat x2 y.
Proof.
  induction x1 as [|a x1 IH]; [reflexivity|].
  cbn [append noStart]. rewrite IH, andb_assoc.
  change (String a (x1 ++ x2) ++ y) with (String a ((x1 ++ x2) ++ y)).
  now rewrite append_assoc.
Qed.

Lemma noStart_class (c : ascii -> bool) (p0 : ascii) (pat x y : string) :
  (forall a, c a = true -> a <> p0) ->
  forallb_string c x = true ->
  noStart (String p0 pat) x y = true.
Proof.
  intros D. induction x as [|a x IH]; intros F; [reflexivity|].
  simpl in F. apply andb_true_iff in F as [Ca F].
  cbn [noStart append prefix].
  destruct (ascii_dec p0 a) as [<- | _]; [now contradiction (D _ Ca)|].
  now apply IH.
Qed.

Lemma noStart_minimal (pat w y : string) :
  (forall w1 w2, w = w1 ++ w2 -> w2 <> "" -> prefix pat (w2 ++ y) = false) ->
  noStart pat w y = true.
Proof.
  induction w as [|a w IH]; intros M; [reflexivity|].
  cbn [noStart]. rewrite (M "" (String a w) eq_refl) by discriminate.
  apply IH. intros w1 w2 -> N. now apply (M (String a w1) w2).
Qed.

Lemma prefix_append_r (pat s t : string) :
  prefix pat s = true -> prefix pat (s ++ t) = true.
Proof.
  intros P. apply prefix_iff in P as [z ->].
  rewrite append_assoc. apply prefix_append.
Qed.

Lemma clean_lit (pat l : string) :
  (forall y, noStart pat l y = true) -> clean pat (Lit l).
Proof. intros N caps s o y M. inversion M; subst. apply N. Qed.

Lemma clean_plus (c : ascii -> bool) (p0 : ascii) (pat : string) :
  (forall a, c a = true -> a <> p0) -> clean (String p0 pat) (Plus c).
Proof.
  intros D caps s o y M. inversion M; subst. now apply (noStart_class c).
Qed.

Lemma clean_star (c : ascii -> bool) (p0 : ascii) (pat : string) :
  (forall a, c a = true -> a <> p0) -> clean (String p0 pat) (Star c).
Proof.
  intros D caps s o y M. inversion M; subst. now apply (noStart_class c).
Qed.

Lemma clean_opt (pat : string) (r : regex) :
  clean pat r -> clean pat (Opt r).
Proof.
  intros C caps s o y M. inversion M; subst; [now apply (C caps s) | reflexivity].
Qed.

Lemma clean_cap (pat : string) (n : nat) (r : regex) :
  clean pat r -> clean pat (Cap n r).
Proof.
  intros C caps s o y M. inversion M; subst.
  match goal with H : matches r _ _ _ |- _ => exact (C _ _ _ y H) end.
Qed.

Lemma clean_seq (pat : string) (r1 r2 : regex) :
  clean pat r1 -> clean pat r2 -> clean pat (Seq r1 r2).
Proof.
  intros C1 C2 caps s o y M. inversion M; subst.
  unfold consumed. cbn [fst]. rewrite noStart_append.
  match goal with
  | H1 : matches r1 _ _ _, H2 : matches r2 _ _ _ |- _ =>
      pose proof (C1 _ _ _ (w2 ++ y) H1) as N1;
      pose proof (C2 _ _ _ y H2) as N2
  end.
  unfold consumed in N1, N2. cbn [fst] in N1, N2. now rewrite N1, N2.
Qed.

Lemma word_not_lt (a : ascii) : word a = true -> a <> "<"%char.
Proof. intros W ->. discriminate W. Qed.

Lemma space_not_lt (a : ascii) : space a = true -> a <> "<"%char.
Proof. intros W ->. discriminate W. Qed.

Lemma wordOrDot_not_lt (a : ascii) : wordOrDot a = true -> a <> "<"%char.
Proof. intros W ->. discriminate W. Qed.

(** No occurrence of the call token starts inside the part of a match
    that runs up to the body: the markers start with other letters, and no
    class of that part has "<". *)
Lemma messageHead_clean : clean "<|call|>" messageHead.
Proof.
  unfold messageHead.
  repeat first
    [ apply clean_seq
    | apply clean_opt
    | apply clean_cap
    | apply clean_lit; intros y; reflexivity
    | apply clean_plus; first [exact word_not_lt | exact space_not_lt
                              | exact wordOrDot_not_lt]
    | apply clean_star; exact space_not_lt ].
Qed.

(** *** The first outcome of a sequence *)

Lemma hd_error_map {A B : Type} (f : A -> B) (l : list A) (y : B) :
  hd_error (map f l) = Some y -> exists x, hd_error l = Some x /\ y = f x.
Proof. destruct l; simpl; [discriminate|]. intros H. injection H as <-. eauto. Qed.

Lemma hd_error_In {A : Type} (l : list A) (x : A) :
  hd_error l = Some x -> In x l.
Proof. destruct l; simpl; [discriminate|]. intros H. injection H as ->. now left. Qed.

Lemma hd_error_flat_map {A B : Type} (f : A -> list B) (l : list A) (y : B) :
  hd_error (flat_map f l) = Some y ->
  exists x, In x l /\ hd_error (f x) = Some y.
Proof.
  induction l as [|x l IH]; simpl; [discriminate|].
  destruct (f x) as [|y0 ys] eqn:E; simpl.
  - intros H. destruct (IH H) as [x' [I H']]. eauto.
  - intros H. exists x. rewrite E. auto.
Qed.

Lemma hd_seq (r1 r2 : regex) (caps : captures) (s : string) (o : outcome) :
  hd_error (run (Seq r1 r2) caps s) = Some o ->
  exists o1 o2,
    In o1 (run r1 caps s) /\
    hd_error (run r2 (capsOf o1) (rest o1)) = Some o2 /\
    o = (consumed o1 ++ consumed o2, capsOf o2, rest o2).
Proof.
  cbn [run]. intros H.
  apply hd_error_flat_map in H as [o1 [I H]].
  apply hd_error_map in H as [o2 [H ->]]. eauto.
Qed.

Lemma flat_map_map {A B C : Type} (f : B -> list C) (g : A -> B) (l : list A) :
  flat_map f (map g l) = flat_map (fun x => f (g x)) l.
Proof. induction l as [|x l IH]; simpl; [reflexivity | now rewrite IH]. Qed.

(** The first success over the lazy splits is at the shortest run for
    which there is one. *)
Lemma hd_lazySplits {B : Type} (c : ascii -> bool) (s : string) :
  forall (F : string * string -> list B) (y : B),
  hd_error (flat_map F (lazySplits c s)) = Some y ->
  exists w t,
    s = w ++ t /\ forallb_string c w = true /\ hd_error (F (w, t)) = Some y /\
    forall w1 w2, w = w1 ++ w2 -> w2 <> "" -> F (w1, w2 ++ t) = [].
Proof.
  induction s as [|a s IH]; intros F y H; cbn [lazySplits flat_map] in H.
  - rewrite app_nil_r in H. exists "", "". repeat split; trivial.
    intros w1 w2 E N. symmetry in E. apply append_eq_nil in E as [_ ->].
    now contradiction N.
  - destruct (F ("", String a s)) as [|y0 ys] eqn:E0.
    + cbn [app] in H. destruct (c a) eqn:Ca; [|discriminate H].
      rewrite flat_map_map in H.
      destruct (IH _ _ H) as [w [t [-> [Fw [Hd Min]]]]]. cbn [fst snd] in *.
      exists (String a w), t. repeat split; trivial.
      * simpl. now rewrite Ca.
      * intros [|x w1] w2 E N; simpl in E.
        -- subst w2. exact E0.
        -- injection E as <- ->. now apply (Min w1 w2).
    + exists "", (String a s). repeat split; trivial.
      * rewrite E0. exact H.
      * intros w1 w2 E N. symmetry in E. apply append_eq_nil in E as [_ ->].
        now contradiction N.
Qed.

Lemma map_eq_nil_inv {A B : Type} (f : A -> B) (l : list A) :
  map f l = [] -> l = [].
Proof. now destruct l. Qed.

(** A captured lazy run followed by [r2]: the first outcome takes the
    shortest run after which [r2] matches. *)
Lemma hd_lazy_seq (n : nat) (c : ascii -> bool) (r2 : regex)
  (caps : captures) (s : string) (o : outcome) :
  hd_error (run (Seq (Cap n (LazyStar c)) r2) caps s) = Some o ->
  exists w t o2,
    s = w ++ t /\ forallb_string c w = true /\
    hd_error (run r2 ((n, w) :: caps) t) = Some o2 /\
    o = (w ++ consumed o2, capsOf o2, rest o2) /\
    forall w1 w2, w = w1 ++ w2 -> w2 <> "" ->
                  run r2 ((n, w1) :: caps) (w2 ++ t) = [].
Proof.
  cbn [run]. rewrite !flat_map_map. intros H.
  apply hd_lazySplits in H as [w [t [E [F [Hd Min]]]]].
  unfold consumed, capsOf, rest in *. cbn [fst snd] in *.
  apply hd_error_map in Hd as [o2 [Hd ->]].
  exists w, t, o2. repeat split; trivial.
  intros w1 w2 E' N. exact (map_eq_nil_inv _ _ (Min w1 w2 E' N)).
Qed.

Lemma terminator_at_call (caps : captures) (z : string) :
  run messageTerminator caps ("<|call|>" ++ z) <> [].
Proof.
  assert (M : matches messageTerminator caps ("<|call|>" ++ z)
                ("<|" ++ "call" ++ "|>", caps, z)).
  { unfold messageTerminator. apply M_AltL.
    eapply M_Seq; [apply (M_Lit "<|")|].
    eapply M_Seq; [apply M_AltR, M_AltL, (M_Lit "call") | apply (M_Lit "|>")]. }
  apply matches_run in M. intros E. rewrite E in M. contradiction M.
Qed.

(** The body stops at the first place where the terminator matches, so no
    call token starts inside it. *)
Lemma body_no_call (w term after : string) (caps : captures) :
  (forall w1 w2, w = w1 ++ w2 -> w2 <> "" ->
     run messageTerminator ((4, w1) :: caps) (w2 ++ term ++ after) = []) ->
  noStart "<|call|>" w term = true.
Proof.
  intros Min. apply noStart_minimal. intros w1 w2 E N.
  destruct (prefix "<|call|>" (w2 ++ term)) eqn:P; [|reflexivity].
  exfalso. apply (prefix_append_r _ _ after) in P.
  rewrite append_assoc in P. apply prefix_iff in P as [z Ez].
  specialize (Min w1 w2 E N). rewrite Ez in Min.
  exact (terminator_at_call _ _ Min).
Qed.

(** What the terminator of the message pattern consumes. *)
Lemma messageTerminator_cases (caps : captures) (s : string) (o : outcome) :
  matches messageTerminator caps s o ->
  exists term after,
    s = term ++ after /\ o = (term, caps, after) /\
    (term = "<|end|>" \/ term = "<|call|>" \/ term = "<|return|>" \/
     (term = "" /\ after = "")).
Proof.
  unfold messageTerminator. intros M.
  inv_matches;
    match goal with
    | |- exists term after, _ = _ /\ (?c, _, ?a) = _ /\ _ => exists c, a
    end;
    (split; [reflexivity | split; [reflexivity|]]);
    first [ left; reflexivity
          | right; left; reflexivity
          | right; right; left; reflexivity
          | right; right; right; split; reflexivity ].
Qed.

(** C8. Every match of the message pattern is a head, the body (group 4)
    and a terminator, which is one of the end, call and return tokens or
    the end of the input; the message built from the match is a call
    exactly when that terminator is the call token. *)
Theorem IsCall_iff_call_terminator (cfg : ParserConfig) (content : string)
  (mt : list string) :
  let p := NewParserWithConfig cfg in
  In mt (FindAllStringSubmatch (messagePattern p) content) ->
  exists head term after caps,
    suffixOf (head ++ sub mt 4 ++ term ++ after) content /\
    sub mt 0 = head ++ sub mt 4 ++ term /\
    matches messageHead [] (head ++ sub mt 4 ++ term ++ after)
      (head, caps, sub mt 4 ++ term ++ after) /\
    matches messageTerminator ((4, sub mt 4) :: caps) (term ++ after)
      (term, (4, sub mt 4) :: caps, after) /\
    (term = "<|end|>" \/ term = "<|call|>" \/ term = "<|return|>" \/
     (term = "" /\ after = "")) /\
    (IsCall (fullMessage p mt) = true <-> term = "<|call|>").
Proof.
  intros p I.
  apply allMatches_In in I as [t [o [S [M ->]]]].
  change (messagePattern p) with messageRe in *.
  unfold matchAt, messageRe in M.
  apply hd_seq in M as [[[h c1] r1] [o2 [I1 [H2 ->]]]].
  unfold messageBody, capsOf, rest in H2. cbn [fst snd] in H2.
  apply hd_lazy_seq in H2 as [w [t' [o3 [-> [F [H3 [-> Min]]]]]]].
  apply run_matches in I1.
  apply hd_error_In, run_matches in H3.
  destruct (messageTerminator_cases _ _ _ H3) as [term [after [-> [-> T]]]].
  pose proof (matches_split _ _ _ _ I1) as Et.
  unfold consumed, rest in Et. cbn [fst snd] in Et. subst t.
  match goal with
  | |- context [submatches messageRe ?o] =>
      change (submatches messageRe o)
        with [h ++ w ++ term; getCap 1 c1; getCap 2 c1; getCap 3 c1; w]
  end.
  cbn [sub nth].
  exists h, term, after, c1.
  repeat split; trivial.
  - unfold fullMessage. cbn [IsCall sub nth].
    rewrite (Contains_skip "<|call|>" h (w ++ term))
      by exact (messageHead_clean _ _ _ (w ++ term) I1).
    rewrite (Contains_skip "<|call|>" w term)
      by exact (body_no_call w term after c1 Min).
    destruct T as [-> | [-> | [-> | [-> _]]]];
      try reflexivity; intros C; discriminate C.
  - unfold fullMessage. cbn [IsCall sub nth]. intros ->.
    rewrite (Contains_skip "<|call|>" h (w ++ "<|call|>"))
      by exact (messageHead_clean _ _ _ (w ++ "<|call|>") I1).
    rewrite (Contains_skip "<|call|>" w "<|call|>")
      by exact (body_no_call w "<|call|>" after c1 Min).
    reflexivity.
Qed.

Lemma IsCall_iff_call_terminator_witness :
  exists head term after caps,
    sub ["<|channel|>commentary to=functions.f<|message|>{}<|call|>";
         ""; "commentary"; "functions.f"; "{}"] 0
    = head ++ "{}" ++ term /\
    matches messageTerminator ((4, "{}") :: caps) (term ++ after)
      (term, (4, "{}") :: caps, after) /\
    (IsCall (fullMessage NewParser
               ["<|channel|>commentary to=functions.f<|message|>{}<|call|>";
                ""; "commentary"; "functions.f"; "{}"]) = true
     <-> term = "<|call|>").
Proof.
  destruct (IsCall_iff_call_terminator DefaultConfig
              "<|channel|>commentary to=functions.f<|message|>{}<|call|>"
              ["<|channel|>commentary to=functions.f<|message|>{}<|call|>";
               ""; "commentary"; "functions.f"; "{}"])
    as [head [term [after [caps [_ [E [_ [T [_ C]]]]]]]]].
  - vm_compute. left. reflexivity.
  - exists head, term, after, caps. auto.
Defined.

(** * Further properties of the parser *)

(** ** The shape of the result of [ParseResponse] *)

(** The loop over the channel pattern can be left out (it only ever runs
    over an empty list of matches). *)
Lemma ParseResponse_unfold (p : Parser) (content : string) :
  messagePattern p = messageRe -> channelPattern p = channelRe ->
  ParseResponse p content = ParseResponse_withoutChannelPattern p content.
Proof.
  intros Hm Hc.
  unfold ParseResponse, ParseResponse_withoutChannelPattern.
  destruct (content =? ""); [reflexivity|].
  destruct (collect p fullMessage _ []) as [[|m msgs] | err] eqn:C;
    [|reflexivity | reflexivity].
  cbn [List.length Nat.eqb andb].
  destruct (strings.Contains content "<|channel|>"); [|reflexivity].
  apply collect_inl in C. cbn [app] in C.
  destruct (FindAllStringSubmatch (channelPattern p) content) eqn:E;
    [reflexivity|].
  exfalso. apply (channelRe_needs_messageRe content).
  - rewrite <- Hc, E. discriminate.
  - rewrite <- Hm.
    now destruct (FindAllStringSubmatch (messagePattern p) content).
Qed.

Lemma FindAll_messageRe_empty : FindAllStringSubmatch messageRe "" = [].
Proof. reflexivity. Qed.

Lemma collect_strict_find (p : Parser)
  (build : Parser -> list string -> Message) (ms : list (list string))
  (acc : list Message) :
  StrictMode (config p) = true ->
  collect p build ms acc =
  match find invalid (map (build p) ms) with
  | Some bad => inr (InvalidChannel (Channel bad))
  | None => inl (acc ++ map (build p) ms)%list
  end.
Proof.
  intros S. destruct (find invalid (map (build p) ms)) as [bad|] eqn:F.
  - now apply collect_strict_bad.
  - now apply collect_strict_ok.
Qed.

(** X1. [ParseResponse] fails exactly when the parser is strict and some
    match of the message pattern has a channel outside the three known
    ones; the error then names the first such channel and no message is
    returned. *)
Theorem ParseResponse_fails_iff (cfg : ParserConfig) (content : string)
  (bad : ChannelT) :
  let p := NewParserWithConfig cfg in
  ParseResponse p content = ([], Some (InvalidChannel bad)) <->
  StrictMode cfg = true /\
  find (fun c => negb (isValidChannel c))
       (map (fun mt => sub mt 2)
            (FindAllStringSubmatch (messagePattern p) content)) = Some bad.
Proof.
  intros p. made_by cfg p. rewrite (ParseResponse_unfold p content Hm Hc).
  unfold ParseResponse_withoutChannelPattern.
  pose proof (find_invalid_map p fullMessage (fun mt => sub mt 2)
                (FindAllStringSubmatch (messagePattern p) content)
                (fun _ => eq_refl)) as FM.
  match goal with
  | |- _ <-> _ /\ ?g = Some bad =>
      match type of FM with _ = ?r => change g with r end
  end.
  destruct (content =? "") eqn:E0.
  { apply String.eqb_eq in E0. subst content.
    split; [discriminate | intros [_ F]; rewrite Hm in F; discriminate F]. }
  rewrite <- Hcfg. destruct (StrictMode (config p)) eqn:S.
  - rewrite (collect_strict_find p fullMessage _ _ S).
    destruct (find invalid _) as [m|]; cbn [option_map] in FM; rewrite <- FM.
    + split.
      * intros H. injection H as ->. auto.
      * intros [_ H]. injection H as ->. reflexivity.
    + split; [discriminate | intros [_ F]; discriminate F].
  - rewrite (collect_relaxed p fullMessage _ _ S).
    split; [discriminate | intros [F _]; discriminate F].
Qed.

Lemma ParseResponse_fails_iff_witness :
  ParseResponse
    (NewParserWithConfig {| StrictMode := true; DefaultRole := "assistant" |})
    "<|channel|>final<|message|>a<|end|><|channel|>x1<|message|>b<|end|><|channel|>x2<|message|>c"
  = ([], Some (InvalidChannel "x1")).
Proof.
  apply (ParseResponse_fails_iff
           {| StrictMode := true; DefaultRole := "assistant" |}).
  split; reflexivity.
Defined.

(** X2. When the message pattern has matches and none is rejected (the
    parser is relaxed, or every channel is a known one), [ParseResponse]
    returns exactly one message per match, in the order of the matches;
    the FUNCTION_CALL notation and the plain message play no part, whatever
    else the text holds. *)
Theorem ParseResponse_one_per_match (cfg : ParserConfig) (content : string) :
  let p := NewParserWithConfig cfg in
  let ms := FindAllStringSubmatch (messagePattern p) content in
  ms <> [] ->
  (StrictMode cfg = false \/
   forall mt, In mt ms -> isValidChannel (sub mt 2) = true) ->
  ParseResponse p content = (map (fullMessage p) ms, None).
Proof.
  intros p ms N V. subst ms. made_by cfg p.
  set (ms := FindAllStringSubmatch (messagePattern p) content) in *.
  rewrite (ParseResponse_unfold p content Hm Hc).
  unfold ParseResponse_withoutChannelPattern.
  destruct (content =? "") eqn:E0.
  { apply String.eqb_eq in E0. subst content. subst ms. rewrite Hm in N.
    now contradiction N. }
  rewrite <- Hcfg in V. fold ms.
  assert (C : collect p fullMessage ms [] = inl (map (fullMessage p) ms)).
  { destruct (StrictMode (config p)) eqn:S.
    - destruct V as [V | V]; [discriminate|].
      apply (collect_strict_ok p fullMessage ms [] S).
      destruct (find invalid (map (fullMessage p) ms)) as [m|] eqn:F;
        [|reflexivity].
      apply find_some in F as [I F]. apply in_map_iff in I as [mt [<- I]].
      unfold invalid in F. cbn [Channel fullMessage] in F.
      rewrite (V mt I) in F. discriminate F.
    - apply (collect_relaxed p fullMessage ms [] S). }
  rewrite C. destruct ms as [|mt more]; [now contradiction N|].
  reflexivity.
Qed.

Lemma ParseResponse_one_per_match_witness :
  ParseResponse NewParser
    "<|channel|>analysis<|message|>FUNCTION_CALL: f(x)<|end|> <|channel|>final<|message|>ok"
  = (map (fullMessage NewParser)
       (FindAllStringSubmatch messageRe
          "<|channel|>analysis<|message|>FUNCTION_CALL: f(x)<|end|> <|channel|>final<|message|>ok"),
     None).
Proof.
  apply (ParseResponse_one_per_match DefaultConfig).
  - vm_compute. discriminate.
  - left. reflexivity.
Defined.

Lemma strict_channels_valid (p : Parser) (content : string) (m : Message) :
  messagePattern p = messageRe -> channelPattern p = channelRe ->
  StrictMode (config p) = true ->
  In m (fst (ParseResponse p content)) ->
  isValidChannel (Channel m) = true.
Proof.
  intros Hm Hc S.
  rewrite (ParseResponse_unfold p content Hm Hc).
  unfold ParseResponse_withoutChannelPattern.
  destruct (content =? ""); [intros []|].
  rewrite (collect_strict_find p fullMessage _ _ S).
  destruct (find invalid _) as [bad|] eqn:F; [intros []|].
  cbn [app fst].
  destruct (map (fullMessage p) _) as [|m1 msgs] eqn:E.
  - unfold legacyStep, plainStep. cbn [List.length Nat.eqb andb app].
    destruct (strings.Contains content "FUNCTION_CALL:").
    + destruct (FindStringSubmatch (functionPattern p) content) as [mt|].
      * cbn [List.length Nat.eqb andb]. intros [<- | []]. reflexivity.
      * cbn [List.length Nat.eqb andb]. rewrite S. intros [].
    + rewrite S. intros [].
  - rewrite plainStep_legacyStep_nonempty. intros I.
    pose proof (find_none _ _ F m I) as V. unfold invalid in V.
    now apply negb_false_iff in V.
Qed.

(** X3. A strict parser only returns messages on the three known
    channels. *)
Theorem ParseResponse_strict_channels_valid (cfg : ParserConfig)
  (content : string) (m : Message) :
  let p := NewParserWithConfig cfg in
  StrictMode cfg = true ->
  In m (fst (ParseResponse p content)) ->
  isValidChannel (Channel m) = true.
Proof.
  intros p. exact (strict_channels_valid p content m eq_refl eq_refl).
Qed.

Lemma ParseResponse_strict_channels_valid_witness :
  isValidChannel "commentary" = true.
Proof.
  apply (ParseResponse_strict_channels_valid
           {| StrictMode := true; DefaultRole := "assistant" |}
           "FUNCTION_CALL: f(x)"
           {| Role := "assistant"; Channel := "commentary"; Content := "x";
              To := "functions.f"; IsCall := true |}).
  - reflexivity.
  - vm_compute. left. reflexivity.
Defined.

Lemma relaxed_nonempty (p : Parser) (content : string) :
  messagePattern p = messageRe -> channelPattern p = channelRe ->
  StrictMode (config p) = false -> content <> "" ->
  fst (ParseResponse p content) <> [].
Proof.
  intros Hm Hc R N.
  rewrite (ParseResponse_unfold p content Hm Hc).
  unfold ParseResponse_withoutChannelPattern.
  apply String.eqb_neq in N. rewrite N.
  rewrite (collect_relaxed p fullMessage _ _ R). cbn [app fst].
  destruct (map (fullMessage p) _) as [|m1 msgs].
  - unfold legacyStep, plainStep. cbn [List.length Nat.eqb andb app].
    destruct (strings.Contains content "FUNCTION_CALL:");
      [destruct (FindStringSubmatch (functionPattern p) content)|];
      cbn [List.length Nat.eqb andb app];
      try discriminate;
      rewrite R, N; discriminate.
  - rewrite plainStep_legacyStep_nonempty. discriminate.
Qed.

(** When [ParseResponse] returns an error it returns no message. *)
Lemma ParseResponse_error_nil (p : Parser) (content : string) (e : error) :
  snd (ParseResponse p content) = Some e -> fst (ParseResponse p content) = [].
Proof.
  unfold ParseResponse.
  destruct (content =? ""); [reflexivity|].
  destruct (collect p fullMessage _ []) as [msgs | err]; [|reflexivity].
  match goal with
  | |- context [match ?c with inl _ => _ | inr _ => _ end] => destruct c
  end; [discriminate | reflexivity].
Qed.

(** X4. A relaxed parser returns at least one message for every non-empty
    input, and no error. *)
Theorem ParseResponse_relaxed_nonempty (cfg : ParserConfig) (content : string) :
  let p := NewParserWithConfig cfg in
  StrictMode cfg = false -> content <> "" ->
  snd (ParseResponse p content) = None /\ fst (ParseResponse p content) <> [].
Proof.
  intros p R N. split.
  - exact (ParseResponse_relaxed p content R).
  - exact (relaxed_nonempty p content eq_refl eq_refl R N).
Qed.

Lemma ParseResponse_relaxed_nonempty_witness :
  snd (ParseResponse NewParser "<|channel|>") = None /\
  fst (ParseResponse NewParser "<|channel|>") <> [].
Proof.
  apply (ParseResponse_relaxed_nonempty DefaultConfig "<|channel|>").
  - reflexivity.
  - discriminate.
Defined.

(** ** The accessors built on [ParseResponse] *)

Lemma firstFinal_no_call_prefix (l : list Message) :
  prefix "FUNCTION_CALL:" (firstFinal l) = false.
Proof.
  destruct (firstFinal_origin l) as [-> | [m [_ [U ->]]]]; [reflexivity|].
  unfold userFacing in U. apply andb_true_iff in U as [_ U].
  now apply negb_true_iff in U.
Qed.

(** With a relaxed parser the fallback of [ExtractFinalMessage] is only
    taken on the empty input. *)
Lemma finalOf_relaxed (p : Parser) (content : string) :
  messagePattern p = messageRe -> channelPattern p = channelRe ->
  StrictMode (config p) = false ->
  ExtractFinalMessage p content = firstFinal (fst (ParseResponse p content)).
Proof.
  intros Hm Hc R. unfold ExtractFinalMessage.
  pose proof (ParseResponse_relaxed p content R) as E.
  destruct (String.eqb_spec content "") as [-> | N].
  - unfold ParseResponse. cbn. now rewrite R.
  - pose proof (relaxed_nonempty p content Hm Hc R N) as NE.
    destruct (ParseResponse p content) as [msgs err]. cbn [fst snd] in *.
    subst err. unfold finalOf. destruct msgs; [now contradiction NE | reflexivity].
Qed.

Lemma finalOf_strict (p : Parser) (content : string) :
  StrictMode (config p) = true ->
  ExtractFinalMessage p content = firstFinal (fst (ParseResponse p content)).
Proof.
  intros S. unfold ExtractFinalMessage.
  pose proof (ParseResponse_error_nil p content) as EN.
  destruct (ParseResponse p content) as [msgs [e|]]; cbn [fst snd] in *.
  - rewrite (EN e eq_refl). cbn. now rewrite S.
  - unfold finalOf. destruct msgs; [cbn; now rewrite S | reflexivity].
Qed.

(** In both modes [ExtractFinalMessage] returns what its loop finds among
    the messages of [ParseResponse]. *)
Lemma ExtractFinalMessage_loop (p : Parser) (content : string) :
  messagePattern p = messageRe -> channelPattern p = channelRe ->
  ExtractFinalMessage p content = firstFinal (fst (ParseResponse p content)).
Proof.
  intros Hm Hc. destruct (StrictMode (config p)) eqn:S.
  - now apply finalOf_strict.
  - now apply finalOf_relaxed.
Qed.

(** X5. Whatever the configuration and the input, the text returned by
    [ExtractFinalMessage] does not start with "FUNCTION_CALL:". *)
Theorem ExtractFinalMessage_never_call_notation (cfg : ParserConfig)
  (content : string) :
  strings.HasPrefix (ExtractFinalMessage (NewParserWithConfig cfg) content)
    "FUNCTION_CALL:" = false.
Proof.
  rewrite (ExtractFinalMessage_loop (NewParserWithConfig cfg) content
             eq_refl eq_refl).
  apply firstFinal_no_call_prefix.
Qed.

Lemma FindAll_nil_collect (p : Parser) (content : string) :
  FindAllStringSubmatch (messagePattern p) content = [] ->
  collect p fullMessage (FindAllStringSubmatch (messagePattern p) content) []
  = inl [].
Proof. intros ->. reflexivity. Qed.

(** X6. On a text in which neither the message pattern nor the
    FUNCTION_CALL pattern matches, [ExtractFinalMessage] returns "" when
    the parser is strict; when it is relaxed it returns the text itself,
    except that a text starting with "FUNCTION_CALL:" gives "". *)
Theorem ExtractFinalMessage_unstructured (cfg : ParserConfig)
  (content : string) :
  let p := NewParserWithConfig cfg in
  FindAllStringSubmatch (messagePattern p) content = [] ->
  FindStringSubmatch (functionPattern p) content = None ->
  ExtractFinalMessage p content =
  if StrictMode cfg then ""
  else if strings.HasPrefix content "FUNCTION_CALL:" then "" else content.
Proof.
  intros p M F. made_by cfg p.
  rewrite (ExtractFinalMessage_loop p content Hm Hc).
  rewrite (ParseResponse_unfold p content Hm Hc).
  unfold ParseResponse_withoutChannelPattern.
  destruct (String.eqb_spec content "") as [-> | N].
  { cbn. now destruct (StrictMode cfg). }
  rewrite (FindAll_nil_collect p content M). cbn [fst].
  assert (L : legacyStep p content [] = []).
  { unfold legacyStep. rewrite F.
    now destruct (List.length [] =? 0)%nat, (strings.Contains content "FUNCTION_CALL:"). }
  rewrite L. unfold plainStep. cbn [List.length Nat.eqb andb app].
  apply String.eqb_neq in N. rewrite N, Hcfg.
  destruct (StrictMode cfg); cbn [negb andb firstFinal]; [reflexivity|].
  cbn [plainMessage Channel IsCall Content].
  unfold strings.HasPrefix.
  destruct (prefix "FUNCTION_CALL:" content); reflexivity.
Qed.

Lemma ExtractFinalMessage_unstructured_witness :
  ExtractFinalMessage NewParser "FUNCTION_CALL: see above" = "" /\
  ExtractFinalMessage NewParser "see FUNCTION_CALL: above"
  = "see FUNCTION_CALL: above".
Proof.
  split.
  - apply (ExtractFinalMessage_unstructured DefaultConfig
             "FUNCTION_CALL: see above"); reflexivity.
  - apply (ExtractFinalMessage_unstructured DefaultConfig
             "see FUNCTION_CALL: above"); reflexivity.
Defined.

Lemma channelContents_filter (channel : ChannelT) (messages : list Message)
  (results : list string) :
  channelContents channel messages results =
  (results ++
   map Content (filter (fun m => Channel m =? channel) messages))%list.
Proof.
  revert results. induction messages as [|m more IH]; intros results; simpl.
  - now rewrite app_nil_r.
  - destruct (Channel m =? channel); simpl; rewrite IH.
    + now rewrite <- app_assoc.
    + reflexivity.
Qed.

Lemma anyOnChannel_filter (channel : ChannelT) (messages : list Message) :
  anyOnChannel channel messages = true <->
  filter (fun m => Channel m =? channel) messages <> [].
Proof.
  induction messages as [|m more IH]; simpl.
  - split; [discriminate | intros N; now contradiction N].
  - destruct (Channel m =? channel); [|exact IH].
    split; [discriminate | reflexivity].
Qed.

Lemma GetChannelContent_filter (p : Parser) (content : string)
  (channel : ChannelT) :
  GetChannelContent p content channel =
  map Content (filter (fun m => Channel m =? channel)
                      (fst (ParseResponse p content))).
Proof.
  unfold GetChannelContent.
  pose proof (ParseResponse_error_nil p content) as EN.
  destruct (ParseResponse p content) as [msgs [e|]]; cbn [fst snd] in *.
  - now rewrite (EN e eq_refl).
  - apply channelContents_filter.
Qed.

Lemma HasChannel_filter (p : Parser) (content : string) (channel : ChannelT) :
  HasChannel p content channel = true <->
  filter (fun m => Channel m =? channel) (fst (ParseResponse p content)) <> [].
Proof.
  unfold HasChannel.
  pose proof (ParseResponse_error_nil p content) as EN.
  destruct (ParseResponse p content) as [msgs [e|]]; cbn [fst snd] in *.
  - rewrite (EN e eq_refl). split; [discriminate | intros N; now contradiction N].
  - apply anyOnChannel_filter.
Qed.

(** X7. [GetChannelContent] returns the contents of the messages of
    [ParseResponse] that are on the given channel, all of them and in
    their order; when [ParseResponse] fails it returns nothing. *)
Theorem GetChannelContent_spec (cfg : ParserConfig) (content : string)
  (channel : ChannelT) :
  let p := NewParserWithConfig cfg in
  GetChannelContent p content channel =
  map Content (filter (fun m => Channel m =? channel)
                      (fst (ParseResponse p content))) /\
  (snd (ParseResponse p content) <> None ->
   GetChannelContent p content channel = []).
Proof.
  intros p. split; [apply GetChannelContent_filter|].
  intros E. rewrite GetChannelContent_filter.
  destruct (snd (ParseResponse p content)) as [e|] eqn:Es; [|now contradiction E].
  now rewrite (ParseResponse_error_nil p content e Es).
Qed.

Lemma GetChannelContent_spec_witness :
  GetChannelContent
    (NewParserWithConfig {| StrictMode := true; DefaultRole := "assistant" |})
    "<|channel|>final<|message|>a<|end|><|channel|>bogus<|message|>b<|end|>"
    "final" = [].
Proof.
  apply (GetChannelContent_spec
           {| StrictMode := true; DefaultRole := "assistant" |}).
  vm_compute. discriminate.
Defined.

(** X8. [HasChannel] answers true exactly when [GetChannelContent] returns
    something for the same text and channel. *)
Theorem HasChannel_iff_GetChannelContent (cfg : ParserConfig)
  (content : string) (channel : ChannelT) :
  let p := NewParserWithConfig cfg in
  HasChannel p content channel = true <->
  GetChannelContent p content channel <> [].
Proof.
  intros p. rewrite HasChannel_filter, GetChannelContent_filter.
  destruct (filter _ _); simpl; split; intros H; try discriminate;
    now contradiction H.
Qed.

(** X9. A strict parser never reports a channel outside the three known
    ones: for such a channel [HasChannel] is false and [GetChannelContent]
    is empty, whatever the text. *)
Theorem HasChannel_strict_unknown (cfg : ParserConfig) (content : string)
  (channel : ChannelT) :
  let p := NewParserWithConfig cfg in
  StrictMode cfg = true -> isValidChannel channel = false ->
  HasChannel p content channel = false /\
  GetChannelContent p content channel = [].
Proof.
  intros p S V.
  assert (E : filter (fun m => Channel m =? channel)
                (fst (ParseResponse p content)) = []).
  { destruct (filter _ _) as [|m l] eqn:F; [reflexivity|].
    assert (I : In m (filter (fun m => Channel m =? channel)
                        (fst (ParseResponse p content))))
      by (rewrite F; now left).
    apply filter_In in I as [I C]. apply String.eqb_eq in C.
    pose proof (strict_channels_valid p content m eq_refl eq_refl S I) as Vm.
    congruence. }
  split.
  - destruct (HasChannel p content channel) eqn:H; [|reflexivity].
    apply HasChannel_filter in H. now contradiction H.
  - rewrite GetChannelContent_filter, E. reflexivity.
Qed.

Lemma HasChannel_strict_unknown_witness :
  HasChannel
    (NewParserWithConfig {| StrictMode := true; DefaultRole := "assistant" |})
    "<|channel|>bogus<|message|>b<|end|>" "bogus" = false.
Proof.
  apply (HasChannel_strict_unknown
           {| StrictMode := true; DefaultRole := "assistant" |});
    reflexivity.
Defined.

(** X10. A non-empty text returned by [ExtractFinalMessage] is one of the
    contents [GetChannelContent] returns for the final channel. *)
Theorem ExtractFinalMessage_in_final_channel (cfg : ParserConfig)
  (content : string) :
  let p := NewParserWithConfig cfg in
  ExtractFinalMessage p content <> "" ->
  In (ExtractFinalMessage p content) (GetChannelContent p content ChannelFinal).
Proof.
  intros p N. rewrite GetChannelContent_filter.
  rewrite (ExtractFinalMessage_loop p content eq_refl eq_refl) in *.
  destruct (firstFinal_origin (fst (ParseResponse p content)))
    as [E | [m [I [U E]]]]; [now contradiction N|].
  rewrite E. apply in_map, filter_In. split; [exact I|].
  unfold userFacing in U. apply andb_true_iff in U as [U _].
  now apply andb_true_iff in U as [U _].
Qed.

Lemma ExtractFinalMessage_in_final_channel_witness :
  In (ExtractFinalMessage NewParser
        "<|channel|>analysis<|message|>t<|end|><|channel|>final<|message|>Hi<|end|>")
     (GetChannelContent NewParser
        "<|channel|>analysis<|message|>t<|end|><|channel|>final<|message|>Hi<|end|>"
        ChannelFinal).
Proof.
  apply (ExtractFinalMessage_in_final_channel DefaultConfig).
  vm_compute. discriminate.
Defined.

(** ** The FUNCTION_CALL notation *)

Lemma FindStringSubmatch_Some (r : regex) (s : string) (mt : list string) :
  FindStringSubmatch r s = Some mt ->
  exists t o, suffixOf t s /\ matchAt r t = Some o /\ mt = submatches r o.
Proof.
  induction s as [|a s IH]; cbn [FindStringSubmatch].
  - destruct (matchAt r "") as [o|] eqn:M; [|discriminate].
    intros H. injection H as <-. exists "", o. split; [apply suffixOf_refl | auto].
  - destruct (matchAt r (String a s)) as [o|] eqn:M.
    + intros H. injection H as <-. exists (String a s), o.
      split; [apply suffixOf_refl | auto].
    + intros H. destruct (IH H) as [t [o [S [M' E]]]].
      exists t, o. split; [now apply suffixOf_tail | auto].
Qed.

Lemma Contains_suffix (pat t s : string) :
  suffixOf t s -> prefix pat t = true -> strings.Contains s pat = true.
Proof.
  intros [pre ->] P. induction pre as [|a pre IH].
  - rewrite Contains_unfold. cbn [append]. now rewrite P.
  - rewrite Contains_unfold. cbn [append]. rewrite IH. apply orb_true_r.
Qed.

(** A match of the FUNCTION_CALL pattern: the marker, white space, a name
    made of word characters, and the arguments between parentheses, on one
    line. *)
Lemma functionRe_shape (t : string) (o : outcome) :
  matches functionRe [] t o ->
  exists ws name args after,
    t = "FUNCTION_CALL:" ++ ws ++ name ++ "(" ++ args ++ ")" ++ after /\
    forallb_string space ws = true /\
    name <> "" /\ forallb_string word name = true /\
    forallb_string dot args = true /\
    submatches functionRe o
    = ["FUNCTION_CALL:" ++ ws ++ name ++ "(" ++ args ++ ")"; name; args].
Proof.
  unfold functionRe. intros M. inv_matches.
  do 4 eexists. repeat split; try eassumption; reflexivity.
Qed.

Lemma word_free_dot (s : string) :
  forallb_string word s = true -> free "." s = true.
Proof.
  unfold free. induction s as [|a s IH]; simpl; [reflexivity|].
  intros H. apply andb_true_iff in H as [W H]. rewrite (IH H), andb_true_r.
  destruct (Ascii.eqb_spec a "."); [subst; discriminate W | reflexivity].
Qed.

Lemma Split_free (sep : ascii) (s : string) :
  free sep s = true -> strings.Split s sep = [s].
Proof.
  unfold free. induction s as [|a s IH]; simpl; [reflexivity|].
  intros H. apply andb_true_iff in H as [A H].
  apply negb_true_iff in A. rewrite A, (IH H). reflexivity.
Qed.

Lemma Split_functions (name : string) :
  free "." name = true ->
  strings.Split ("functions." ++ name) "." = ["functions"; name].
Proof.
  intros F. cbn [append strings.Split Ascii.eqb Bool.eqb].
  rewrite (Split_free _ _ F). reflexivity.
Qed.

(** The message of the FUNCTION_CALL notation, and what
    [ExtractFunctionCall] makes of it. *)
Lemma legacy_rule (p : Parser) (content : string) (mt : list string) :
  messagePattern p = messageRe -> channelPattern p = channelRe ->
  functionPattern p = functionRe ->
  FindAllStringSubmatch messageRe content = [] ->
  FindStringSubmatch functionRe content = Some mt ->
  ParseResponse p content = ([legacyMessage p mt], None) /\
  firstCall [legacyMessage p mt] = Some (sub mt 1, sub mt 2).
Proof.
  intros Hm Hc Hf M F.
  destruct (FindStringSubmatch_Some _ _ _ F) as [t [o [S [Mo ->]]]].
  apply matchAt_matches in Mo.
  destruct (functionRe_shape t o Mo)
    as [ws [name [args [after [Et [_ [Nn [Wn [_ Es]]]]]]]]].
  assert (C : strings.Contains content "FUNCTION_CALL:" = true).
  { apply (Contains_suffix _ t); [exact S|]. rewrite Et. apply prefix_append. }
  split.
  - rewrite (ParseResponse_unfold p content Hm Hc).
    unfold ParseResponse_withoutChannelPattern.
    destruct (String.eqb_spec content "") as [-> | N]; [discriminate C|].
    rewrite Hm, M. cbn [collect]. unfold legacyStep.
    rewrite C, Hf, F. reflexivity.
  - rewrite Es. cbn [firstCall legacyMessage IsCall To Content sub nth andb].
    cbv zeta. rewrite (Split_functions name (word_free_dot name Wn)).
    reflexivity.
Qed.

(** X11. When the message pattern matches nowhere and the FUNCTION_CALL
    pattern matches, [ParseResponse] returns, in strict mode as well as in
    relaxed mode, the single commentary call message whose target is
    "functions." followed by the name and whose content is the argument
    text, and [ExtractFunctionCall] returns that name and those
    arguments. *)
Theorem FUNCTION_CALL_notation (cfg : ParserConfig) (content : string)
  (mt : list string) :
  let p := NewParserWithConfig cfg in
  FindAllStringSubmatch (messagePattern p) content = [] ->
  FindStringSubmatch (functionPattern p) content = Some mt ->
  ParseResponse p content =
  ([{| Role := DefaultRole cfg; Channel := ChannelCommentary;
       Content := sub mt 2; To := "functions." ++ sub mt 1;
       IsCall := true |}], None) /\
  ExtractFunctionCall p content = (sub mt 1, sub mt 2, true).
Proof.
  intros p M F.
  destruct (legacy_rule p content mt eq_refl eq_refl eq_refl M F) as [E C].
  split; [exact E|].
  unfold ExtractFunctionCall. rewrite E, C. reflexivity.
Qed.

Lemma FUNCTION_CALL_notation_witness :
  ExtractFunctionCall
    (NewParserWithConfig {| StrictMode := true; DefaultRole := "assistant" |})
    "Let me check. FUNCTION_CALL: get_weather({'city': 'NYC'}) Done."
  = ("get_weather", "{'city': 'NYC'}", true).
Proof.
  apply (FUNCTION_CALL_notation
           {| StrictMode := true; DefaultRole := "assistant" |}
           "Let me check. FUNCTION_CALL: get_weather({'city': 'NYC'}) Done."
           ["FUNCTION_CALL: get_weather({'city': 'NYC'})"; "get_weather";
            "{'city': 'NYC'}"]).
  - reflexivity.
  - reflexivity.
Defined.

(** ** What the fields of a message can hold *)

(** The groups of a match of the message pattern: the role is made of
    word characters (none if absent), the channel is a non-empty word, the
    target is made of word characters and dots (none if absent). *)
Lemma messageRe_groups (t : string) (o : outcome) :
  matches messageRe [] t o ->
  forallb_string word (sub (submatches messageRe o) 1) = true /\
  sub (submatches messageRe o) 2 <> "" /\
  forallb_string word (sub (submatches messageRe o) 2) = true /\
  forallb_string wordOrDot (sub (submatches messageRe o) 3) = true.
Proof.
  unfold messageRe. intros M.
  inversion M as [| | | | | | | r1 r2 c0 s0 h c1 t1 x c2 t2 MH MB | | |];
    subst; clear M.
  inversion MB as [| | | | | | | r1 r2 c0 s0 w c3 t3 y c4 t4 MW MT | | |];
    subst; clear MB.
  apply messageTerminator_cases in MT as [term [after [-> [E _]]]].
  injection E as -> -> ->.
  unfold messageHead, messageBody in *.
  inv_matches; cbn; auto.
Qed.

Lemma word_wordOrDot (s : string) :
  forallb_string word s = true -> forallb_string wordOrDot s = true.
Proof.
  induction s as [|a s IH]; cbn [forallb_string]; [reflexivity|].
  intros H. apply andb_true_iff in H as [W H].
  rewrite (IH H). unfold wordOrDot. now rewrite W.
Qed.

(** X12. In every message [ParseResponse] returns, the channel is a
    non-empty string of word characters, the target holds only word
    characters and dots, and the role is the configured default role or a
    non-empty string of word characters; so no field but the content can
    carry white space or a marker. *)
Theorem ParseResponse_fields (cfg : ParserConfig) (content : string)
  (m : Message) :
  let p := NewParserWithConfig cfg in
  In m (fst (ParseResponse p content)) ->
  Channel m <> "" /\ forallb_string word (Channel m) = true /\
  forallb_string wordOrDot (To m) = true /\
  (Role m = DefaultRole cfg \/
   (Role m <> "" /\ forallb_string word (Role m) = true)).
Proof.
  intros p. made_by cfg p. rewrite <- Hcfg.
  rewrite (ParseResponse_unfold p content Hm Hc).
  unfold ParseResponse_withoutChannelPattern.
  destruct (content =? ""); [intros []|].
  destruct (collect p fullMessage _ []) as [msgs | err] eqn:C; [|intros []].
  apply collect_inl in C. cbn [app] in C. cbn [fst].
  destruct msgs as [|m1 msgs].
  - unfold legacyStep. cbn [List.length Nat.eqb andb].
    assert (P : In m (plainStep p content []) ->
                Channel m <> "" /\ forallb_string word (Channel m) = true /\
                forallb_string wordOrDot (To m) = true /\
                (Role m = DefaultRole (config p) \/
                 (Role m <> "" /\ forallb_string word (Role m) = true))).
    { unfold plainStep. cbn [List.length Nat.eqb andb app].
      destruct (negb (StrictMode (config p)) && negb (content =? ""));
        [|intros []].
      intros [<- | []]. cbn. repeat split; auto. discriminate. }
    destruct (strings.Contains content "FUNCTION_CALL:"); [|exact P].
    destruct (FindStringSubmatch (functionPattern p) content) as [mt|] eqn:F;
      [|exact P].
    intros [<- | []]. rewrite Hf in F.
    destruct (FindStringSubmatch_Some _ _ _ F) as [t [o [_ [Mo ->]]]].
    apply matchAt_matches in Mo.
    destruct (functionRe_shape t o Mo)
      as [ws [name [args [after [_ [_ [_ [Wn [_ Es]]]]]]]]].
    rewrite Es. cbn [legacyMessage Channel To Role sub nth].
    repeat split; auto; try discriminate.
    cbn. now apply word_wordOrDot.
  - rewrite plainStep_legacyStep_nonempty. intros I. rewrite C in I.
    apply in_map_iff in I as [mt [<- I]]. rewrite Hm in I.
    apply allMatches_In in I as [t [o [_ [Mo ->]]]].
    apply matchAt_matches, messageRe_groups in Mo as [G1 [G2 [G3 G4]]].
    cbn [fullMessage Channel To Role].
    repeat split; trivial.
    destruct (sub (submatches messageRe o) 1 =? "") eqn:E; cbn [negb].
    + now left.
    + right. split; [now apply String.eqb_neq | exact G1].
Qed.

Lemma ParseResponse_fields_witness :
  "final" <> "" /\ forallb_string word "final" = true /\
  forallb_string wordOrDot "a.b" = true /\
  ("sys" = "assistant" \/ ("sys" <> "" /\ forallb_string word "sys" = true)).
Proof.
  apply (ParseResponse_fields DefaultConfig
           "<|start|>sys<|channel|>final to=a.b<|message|>x"
           {| Role := "sys"; Channel := "final"; Content := "x"; To := "a.b";
              IsCall := false |}).
  vm_compute. left. reflexivity.
Defined.

(** ** No terminator inside a body *)

Lemma Contains_split (s pat : string) :
  strings.Contains s pat = true -> exists a b, s = a ++ pat ++ b.
Proof.
  induction s as [|x s IH]; rewrite Contains_unfold; intros H.
  - rewrite orb_false_r in H. apply prefix_iff in H as [b E]. now exists "", b.
  - apply orb_true_iff in H as [H | H].
    + apply prefix_iff in H as [b E]. now exists "", b.
    + destruct (IH H) as [a [b ->]]. now exists (String x a), b.
Qed.

Lemma Contains_inside (a s b pat : string) :
  strings.Contains s pat = true -> strings.Contains (a ++ s ++ b) pat = true.
Proof.
  intros H. apply Contains_split in H as [u [v ->]].
  apply (Contains_suffix pat (pat ++ v ++ b)).
  - exists (a ++ u). now rewrite !append_assoc.
  - apply prefix_append.
Qed.

(** [TrimSpace] returns a part of its argument. *)
Lemma TrimSpace_inside (s : string) :
  exists a b, s = a ++ strings.TrimSpace s ++ b.
Proof.
  unfold strings.TrimSpace, strings.TrimRightSpace, strings.TrimLeftSpace.
  destruct (trimFront_suffix strings.space2 strings.space3 s) as [a E].
  set (x := strings.trimFront strings.space2 strings.space3 s) in *.
  destruct (trimFront_suffix (fun a b => strings.space2 b a)
              (fun a b c => strings.space3 c b a) (rev x)) as [b E'].
  exists a, (rev b). rewrite <- rev_append, <- E', rev_involutive. exact E.
Qed.

Lemma terminator_at (tok : string) (caps : captures) (z : string) :
  tok = "<|end|>" \/ tok = "<|call|>" \/ tok = "<|return|>" ->
  run messageTerminator caps (tok ++ z) <> [].
Proof.
  intros T.
  assert (M : exists o, matches messageTerminator caps (tok ++ z) o).
  { unfold messageTerminator.
    destruct T as [-> | [-> | ->]]; eexists; apply M_AltL;
      (eapply M_Seq; [apply (M_Lit "<|")|]);
      (eapply M_Seq; [|apply (M_Lit "|>")]).
    - apply M_AltL, (M_Lit "end").
    - apply M_AltR, M_AltL, (M_Lit "call").
    - apply M_AltR, M_AltR, (M_Lit "return"). }
  destruct M as [o M]. apply matches_run in M.
  intros E. rewrite E in M. contradiction M.
Qed.

(** The first outcome of the message pattern: a head, the shortest body
    after which the terminator matches, and the terminator. *)
Lemma messageRe_first (t : string) (o : outcome) :
  matchAt messageRe t = Some o ->
  exists h c1 w term after,
    t = h ++ w ++ term ++ after /\
    o = (h ++ w ++ term, (4, w) :: c1, after) /\
    matches messageHead [] t (h, c1, w ++ term ++ after) /\
    (forall w1 w2, w = w1 ++ w2 -> w2 <> "" ->
       run messageTerminator ((4, w1) :: c1) (w2 ++ term ++ after) = []) /\
    (term = "<|end|>" \/ term = "<|call|>" \/ term = "<|return|>" \/
     (term = "" /\ after = "")).
Proof.
  unfold matchAt, messageRe. intros M.
  apply hd_seq in M as [[[h c1] r1] [o2 [I1 [H2 ->]]]].
  unfold messageBody, capsOf, rest in H2. cbn [fst snd] in H2.
  apply hd_lazy_seq in H2 as [w [t' [o3 [-> [F [H3 [-> Min]]]]]]].
  apply run_matches in I1.
  apply hd_error_In, run_matches in H3.
  destruct (messageTerminator_cases _ _ _ H3) as [term [after [-> [-> T]]]].
  pose proof (matches_split _ _ _ _ I1) as Et.
  unfold consumed, rest in Et. cbn [fst snd] in Et. subst t.
  exists h, c1, w, term, after. repeat split; trivial.
Qed.

Lemma body_no_terminator (w term after tok : string) (caps : captures) :
  (forall w1 w2, w = w1 ++ w2 -> w2 <> "" ->
     run messageTerminator ((4, w1) :: caps) (w2 ++ term ++ after) = []) ->
  tok = "<|end|>" \/ tok = "<|call|>" \/ tok = "<|return|>" ->
  strings.Contains w tok = false.
Proof.
  intros Min T. destruct (strings.Contains w tok) eqn:C; [|reflexivity].
  exfalso. apply Contains_split in C as [a [b ->]].
  assert (N : tok ++ b <> "")
    by (destruct T as [-> | [-> | ->]]; discriminate).
  specialize (Min a (tok ++ b) eq_refl N).
  rewrite append_assoc in Min. exact (terminator_at tok _ _ T Min).
Qed.

(** X13. Neither the body captured by a match of the message pattern nor
    the content of the message built from it contains an end, call or
    return token. *)
Theorem Content_has_no_terminator (cfg : ParserConfig) (content : string)
  (mt : list string) (tok : string) :
  let p := NewParserWithConfig cfg in
  In mt (FindAllStringSubmatch (messagePattern p) content) ->
  tok = "<|end|>" \/ tok = "<|call|>" \/ tok = "<|return|>" ->
  strings.Contains (sub mt 4) tok = false /\
  strings.Contains (Content (fullMessage p mt)) tok = false.
Proof.
  intros p I T.
  apply allMatches_In in I as [t [o [_ [M ->]]]].
  change (messagePattern p) with messageRe in *.
  apply messageRe_first in M as [h [c1 [w [term [after [_ [-> [_ [Min _]]]]]]]]].
  assert (B : strings.Contains w tok = false)
    by exact (body_no_terminator w term after tok c1 Min T).
  cbn [fullMessage Content].
  change (sub (submatches messageRe (h ++ w ++ term, (4, w) :: c1, after)) 4)
    with w.
  split; [exact B|].
  destruct (strings.Contains (strings.TrimSpace w) tok) eqn:C; [|reflexivity].
  destruct (TrimSpace_inside w) as [a [b E]].
  apply (Contains_inside a _ b) in C. rewrite <- E in C. congruence.
Qed.

Lemma Content_has_no_terminator_witness :
  strings.Contains
    (sub ["<|channel|>final<|message|> a b <|return|>"; ""; "final"; "";
          " a b "] 4) "<|call|>" = false /\
  strings.Contains
    (Content (fullMessage NewParser
                ["<|channel|>final<|message|> a b <|return|>"; ""; "final";
                 ""; " a b "])) "<|call|>" = false.
Proof.
  apply (Content_has_no_terminator DefaultConfig
           "<|channel|>final<|message|> a b <|return|>c<|end|>").
  - vm_compute. left. reflexivity.
  - right. left. reflexivity.
Defined.

(** ** From messages to text and back *)

(** *** First outcomes *)

Lemma first_lit (l : string) (caps : captures) (t : string) :
  hd_error (run (Lit l) caps (l ++ t)) = Some (l, caps, t).
Proof. cbn [run]. now rewrite prefix_append, drop_append. Qed.

Lemma first_seq (r1 r2 : regex) (caps : captures) (s : string)
  (o1 o2 : outcome) :
  hd_error (run r1 caps s) = Some o1 ->
  hd_error (run r2 (capsOf o1) (rest o1)) = Some o2 ->
  hd_error (run (Seq r1 r2) caps s)
  = Some (consumed o1 ++ consumed o2, capsOf o2, rest o2).
Proof.
  cbn [run]. intros H1 H2.
  destruct (run r1 caps s) as [|x l]; [discriminate|].
  injection H1 as ->. cbn [flat_map].
  destruct (run r2 (capsOf o1) (rest o1)) as [|y l2]; [discriminate|].
  injection H2 as ->. reflexivity.
Qed.

Lemma first_cap (n : nat) (r : regex) (caps : captures) (s : string)
  (o : outcome) :
  hd_error (run r caps s) = Some o ->
  hd_error (run (Cap n r) caps s)
  = Some (consumed o, (n, consumed o) :: capsOf o, rest o).
Proof.
  cbn [run]. intros H. destruct (run r caps s); [discriminate|].
  injection H as ->. reflexivity.
Qed.

Lemma first_opt_some (r : regex) (caps : captures) (s : string) (o : outcome) :
  hd_error (run r caps s) = Some o -> hd_error (run (Opt r) caps s) = Some o.
Proof.
  cbn [run]. intros H. destruct (run r caps s); [discriminate|]. exact H.
Qed.

Lemma first_opt_none (r : regex) (caps : captures) (s : string) :
  run r caps s = [] -> hd_error (run (Opt r) caps s) = Some ("", caps, s).
Proof. cbn [run]. now intros ->. Qed.

Lemma plusSplits_first (c : ascii -> bool) (w t : string) :
  w <> "" -> forallb_string c w = true -> stops c t = true ->
  hd_error (plusSplits c (w ++ t)) = Some (w, t).
Proof.
  intros N F S. induction w as [|a w IH]; [now contradiction N|].
  cbn [forallb_string] in F. apply andb_true_iff in F as [Ca F].
  cbn [append plusSplits]. rewrite Ca.
  destruct w as [|b w].
  - cbn [append]. destruct t as [|x t]; [reflexivity|].
    cbn [stops] in S. apply negb_true_iff in S.
    cbn [plusSplits]. rewrite S. reflexivity.
  - assert (H : hd_error (plusSplits c (String b w ++ t)) = Some (String b w, t))
      by (apply IH; [discriminate | exact F]).
    destruct (plusSplits c (String b w ++ t)); [discriminate|].
    injection H as ->. reflexivity.
Qed.

Lemma first_plus (c : ascii -> bool) (caps : captures) (w t : string) :
  w <> "" -> forallb_string c w = true -> stops c t = true ->
  hd_error (run (Plus c) caps (w ++ t)) = Some (w, caps, t).
Proof.
  intros N F S. cbn [run].
  pose proof (plusSplits_first c w t N F S) as H.
  destruct (plusSplits c (w ++ t)); [discriminate|].
  injection H as ->. reflexivity.
Qed.

Lemma first_lazySplits {B : Type} (c : ascii -> bool) (w t : string) :
  forall (F : string * string -> list B),
  forallb_string c w = true ->
  (forall w1 w2, w = w1 ++ w2 -> w2 <> "" -> F (w1, w2 ++ t) = []) ->
  hd_error (flat_map F (lazySplits c (w ++ t))) = hd_error (F (w, t)) \/
  F (w, t) = [].
Proof.
  induction w as [|a w IH]; intros F Fw Min.
  - destruct (F ("", t)) as [|y ys] eqn:E; [now right|]. left.
    destruct t; cbn [append lazySplits flat_map]; rewrite E; reflexivity.
  - cbn [forallb_string] in Fw. apply andb_true_iff in Fw as [Ca Fw].
    cbn [append lazySplits flat_map]. rewrite Ca.
    assert (E0 : F ("", String a (w ++ t)) = [])
      by (apply (Min "" (String a w) eq_refl); discriminate).
    rewrite E0. cbn [app].
    rewrite flat_map_map.
    destruct (IH (fun x => F (String a (fst x), snd x)) Fw) as [H | H].
    + intros w1 w2 -> N. cbn [fst snd]. now apply (Min (String a w1) w2).
    + left. exact H.
    + now right.
Qed.

Lemma first_lazy_seq (n : nat) (c : ascii -> bool) (r2 : regex)
  (caps : captures) (w t : string) (o2 : outcome) :
  forallb_string c w = true ->
  hd_error (run r2 ((n, w) :: caps) t) = Some o2 ->
  (forall w1 w2, w = w1 ++ w2 -> w2 <> "" ->
     run r2 ((n, w1) :: caps) (w2 ++ t) = []) ->
  hd_error (run (Seq (Cap n (LazyStar c)) r2) caps (w ++ t))
  = Some (w ++ consumed o2, capsOf o2, rest o2).
Proof.
  intros Fw H2 Min. cbn [run]. rewrite !flat_map_map.
  unfold consumed, capsOf, rest. cbn [fst snd].
  match goal with
  | |- hd_error (flat_map ?F _) = _ =>
      destruct (first_lazySplits c w t F Fw) as [H | H]
  end.
  - intros w1 w2 E N. cbn [fst snd]. now rewrite (Min w1 w2 E N).
  - refine (eq_trans H _). cbn [fst snd].
    destruct (run r2 ((n, w) :: caps) t); [discriminate|].
    injection H2 as ->. reflexivity.
  - cbn [fst snd] in H. apply map_eq_nil_inv in H. rewrite H in H2.
    discriminate.
Qed.

(** *** The message pattern on the text of a message *)

(** The head of the pattern on the head of a text: an optional start tag
    and role, the channel, an optional target, the message marker. *)
Lemma head_first (rt r1 ch tt to tail : string) :
  (rt = "" /\ r1 = "" \/
   (r1 <> "" /\ forallb_string word r1 = true /\ rt = "<|start|>" ++ r1)) ->
  ch <> "" -> forallb_string word ch = true ->
  (tt = "" /\ to = "" \/
   (to <> "" /\ forallb_string wordOrDot to = true /\ tt = " to=" ++ to)) ->
  exists o,
    hd_error (run messageHead []
                (rt ++ "<|channel|>" ++ ch ++ tt ++ "<|message|>" ++ tail))
    = Some o /\
    consumed o = rt ++ "<|channel|>" ++ ch ++ tt ++ "<|message|>" /\
    rest o = tail /\
    getCap 1 (capsOf o) = r1 /\ getCap 2 (capsOf o) = ch /\
    getCap 3 (capsOf o) = to.
Proof.
  intros R Nc Wc T. unfold messageHead.
  destruct R as [[-> ->] | [Nr [Wr ->]]]; destruct T as [[-> ->] | [Nt [Wt ->]]].
  - eexists. split.
    + norm.
      eapply first_seq; [apply first_opt_none; reflexivity|]. norm.
      eapply first_seq; [apply first_opt_none; reflexivity|]. norm.
      eapply first_seq; [apply (first_lit "<|channel|>")|]. norm.
      eapply first_seq;
        [apply first_cap, first_plus; [exact Nc | exact Wc | reflexivity]|].
      norm.
      eapply first_seq; [apply first_opt_none; reflexivity|]. norm.
      eapply first_seq; [apply first_opt_none; reflexivity|]. norm.
      apply (first_lit "<|message|>").
    + norm. repeat split; reflexivity.
  - eexists. split.
    + norm.
      eapply first_seq; [apply first_opt_none; reflexivity|]. norm.
      eapply first_seq; [apply first_opt_none; reflexivity|]. norm.
      eapply first_seq; [apply (first_lit "<|channel|>")|]. norm.
      eapply first_seq;
        [apply first_cap, first_plus; [exact Nc | exact Wc | reflexivity]|].
      norm.
      eapply first_seq.
      { apply first_opt_some.
        eapply first_seq;
          [apply (first_plus space _ " "); [discriminate | reflexivity..]|].
        norm.
        eapply first_seq; [apply (first_lit "to=")|]. norm.
        apply first_cap, first_plus; [exact Nt | exact Wt | reflexivity]. }
      norm.
      eapply first_seq; [apply first_opt_none; reflexivity|]. norm.
      apply (first_lit "<|message|>").
    + norm. rewrite ?append_assoc. cbn. repeat split; reflexivity.
  - eexists. split.
    + norm.
      eapply first_seq;
        [apply first_opt_some, (first_lit "<|start|>")|]. norm.
      eapply first_seq;
        [apply first_opt_some, first_cap, first_plus;
         [exact Nr | exact Wr | reflexivity]|].
      norm.
      eapply first_seq; [apply (first_lit "<|channel|>")|]. norm.
      eapply first_seq;
        [apply first_cap, first_plus; [exact Nc | exact Wc | reflexivity]|].
      norm.
      eapply first_seq; [apply first_opt_none; reflexivity|]. norm.
      eapply first_seq; [apply first_opt_none; reflexivity|]. norm.
      apply (first_lit "<|message|>").
    + norm. rewrite ?append_assoc. cbn. repeat split; reflexivity.
  - eexists. split.
    + norm.
      eapply first_seq;
        [apply first_opt_some, (first_lit "<|start|>")|]. norm.
      eapply first_seq;
        [apply first_opt_some, first_cap, first_plus;
         [exact Nr | exact Wr | reflexivity]|].
      norm.
      eapply first_seq; [apply (first_lit "<|channel|>")|]. norm.
      eapply first_seq;
        [apply first_cap, first_plus; [exact Nc | exact Wc | reflexivity]|].
      norm.
      eapply first_seq.
      { apply first_opt_some.
        eapply first_seq;
          [apply (first_plus space _ " "); [discriminate | reflexivity..]|].
        norm.
        eapply first_seq; [apply (first_lit "to=")|]. norm.
        apply first_cap, first_plus; [exact Nt | exact Wt | reflexivity]. }
      norm.
      eapply first_seq; [apply first_opt_none; reflexivity|]. norm.
      apply (first_lit "<|message|>").
    + norm. rewrite ?append_assoc. cbn. repeat split; reflexivity.
Qed.

Lemma forallb_dotAll (s : string) : forallb_string dotAll s = true.
Proof. induction s; auto. Qed.

Lemma terminator_first (b : bool) (caps : captures) (tail : string) :
  hd_error (run messageTerminator caps
              ((if b then "<|call|>" else "<|end|>") ++ tail))
  = Some (if b then "<|call|>" else "<|end|>", caps, tail).
Proof. destruct b, tail; reflexivity. Qed.

Lemma terminator_not_here (a : ascii) (s : string) (caps : captures) :
  a <> "<"%char -> run messageTerminator caps (String a s) = [].
Proof.
  intros N. unfold messageTerminator. cbn [run prefix].
  destruct (ascii_dec "<" a) as [E | _]; [now contradiction N | reflexivity].
Qed.

Lemma free_head (c a : ascii) (s : string) :
  free c (String a s) = true -> a <> c /\ free c s = true.
Proof.
  unfold free. cbn [forallb_string]. intros H.
  apply andb_true_iff in H as [A H]. apply negb_true_iff in A.
  split; [now apply Ascii.eqb_neq | exact H].
Qed.

(** What makes a message renderable, piece by piece. *)
Lemma renderable_parts (cfg : ParserConfig) (m : Message) :
  renderable cfg m = true ->
  ((Role m =? DefaultRole cfg) = true \/
   (Role m <> "" /\ forallb_string word (Role m) = true)) /\
  Channel m <> "" /\ forallb_string word (Channel m) = true /\
  forallb_string wordOrDot (To m) = true /\
  free "<" (Content m) = true /\
  strings.TrimSpace (Content m) = Content m.
Proof.
  unfold renderable. intros H.
  repeat match type of H with
         | _ && _ = true => let H' := fresh "H" in
                            apply andb_true_iff in H as [H H']
         end.
  repeat split; trivial.
  - apply orb_true_iff in H as [H | H]; [now left | right].
    apply andb_true_iff in H as [N W]. apply negb_true_iff in N.
    split; [now apply String.eqb_neq | exact W].
  - apply negb_true_iff in H4. now apply String.eqb_neq.
  - now apply String.eqb_eq.
Qed.

(** The message pattern, tried at the front of the text of a renderable
    message followed by anything, matches that text and no more, and its
    groups are the fields of the message. *)
Lemma render_first (cfg : ParserConfig) (m : Message) (tail : string) :
  renderable cfg m = true ->
  exists o,
    matchAt messageRe (render cfg m ++ tail) = Some o /\
    consumed o = render cfg m /\ rest o = tail /\
    submatches messageRe o = groupsOf cfg m /\
    strings.Contains (render cfg m) "<|call|>" = IsCall m.
Proof.
  intros R.
  destruct (renderable_parts cfg m R) as [Rr [Nc [Wc [Wt [Fc _]]]]].
  unfold groupsOf, render.
  set (rt := if Role m =? DefaultRole cfg then "" else "<|start|>" ++ Role m).
  set (r1 := if Role m =? DefaultRole cfg then "" else Role m).
  set (tt := if To m =? "" then "" else " to=" ++ To m).
  set (term := if IsCall m then "<|call|>" else "<|end|>").
  assert (HR : rt = "" /\ r1 = "" \/
               (r1 <> "" /\ forallb_string word r1 = true /\
                rt = "<|start|>" ++ r1)).
  { unfold rt, r1. destruct (Role m =? DefaultRole cfg); [now left | right].
    destruct Rr as [Rr | [Rn Rw]]; [discriminate | auto]. }
  assert (HT : tt = "" /\ To m = "" \/
               (To m <> "" /\ forallb_string wordOrDot (To m) = true /\
                tt = " to=" ++ To m)).
  { unfold tt. destruct (String.eqb_spec (To m) ""); [now left | right; auto]. }
  destruct (head_first rt r1 (Channel m) tt (To m)
              (Content m ++ term ++ tail) HR Nc Wc HT)
    as [o1 [H1 [C1 [R1 [G1 [G2 G3]]]]]].
  assert (H2 : hd_error (run (Seq messageBody messageTerminator)
                           (capsOf o1) (rest o1))
               = Some (Content m ++ term, (4, Content m) :: capsOf o1, tail)).
  { rewrite R1. unfold messageBody.
    refine (first_lazy_seq 4 dotAll messageTerminator (capsOf o1) (Content m)
              (term ++ tail) (term, (4, Content m) :: capsOf o1, tail)
              (forallb_dotAll _) (terminator_first _ _ _) _).
    intros w1 w2 E N. destruct w2 as [|a w2]; [now contradiction N|].
    apply terminator_not_here.
    rewrite E, free_append in Fc. apply andb_true_iff in Fc as [_ Fc].
    now apply free_head in Fc as [Fc _]. }
  pose proof (first_seq _ _ _ _ _ _ H1 H2) as H.
  cbn [capsOf rest consumed fst snd] in H.
  replace ((rt ++ "<|channel|>" ++ Channel m ++ tt ++ "<|message|>" ++
            Content m ++ term) ++ tail)
    with (rt ++ "<|channel|>" ++ Channel m ++ tt ++ "<|message|>" ++
          Content m ++ term ++ tail)
    by now rewrite !append_assoc.
  eexists. split; [exact H|]. cbn [capsOf rest consumed fst snd].
  assert (EC : consumed o1 ++ Content m ++ term
               = rt ++ "<|channel|>" ++ Channel m ++ tt ++ "<|message|>" ++
                 Content m ++ term).
  { now rewrite C1, !append_assoc. }
  repeat split.
  - exact EC.
  - unfold submatches. cbn [capsOf rest consumed fst snd]. cbn [numSubexp messageRe messageHead messageBody
      messageTerminator Nat.add seq map getCap Nat.eqb].
    now rewrite EC, G1, G2, G3.
  - rewrite <- EC.
    apply hd_error_In, run_matches in H1.
    rewrite (Contains_skip "<|call|>" (consumed o1) (Content m ++ term))
      by exact (messageHead_clean _ _ _ _ H1).
    rewrite (Contains_skip "<|call|>" (Content m) term)
      by (apply (noStart_class (fun a => negb (a =? "<")%char));
          [intros a Ha; apply negb_true_iff in Ha; now apply Ascii.eqb_neq
          | exact Fc]).
    unfold term. now destruct (IsCall m).
Qed.

Lemma fullMessage_groupsOf (p : Parser) (cfg : ParserConfig) (m : Message) :
  config p = cfg -> renderable cfg m = true ->
  fullMessage p (groupsOf cfg m) = m.
Proof.
  intros Hcfg R.
  destruct (render_first cfg m "" R) as [_ [_ [_ [_ [_ C]]]]].
  destruct (renderable_parts cfg m R) as [Rr [_ [_ [_ [_ T]]]]].
  unfold fullMessage, groupsOf. cbn [sub nth]. rewrite C, T, Hcfg.
  destruct m as [role ch co to ic]. cbn [Role Channel Content To IsCall] in *.
  f_equal.
  destruct (String.eqb_spec role (DefaultRole cfg)) as [-> | N]; [reflexivity|].
  destruct Rr as [Rr | [Rn _]]; [discriminate|].
  apply String.eqb_neq in Rn. now rewrite Rn.
Qed.

(** *** Successive matches over a transcript *)

Lemma allMatches_skip (r : regex) (x tail : string) (adj : bool) :
  allMatches r (String.length x) adj (x ++ tail) = allMatches r 0 adj tail.
Proof. induction x as [|a x IH]; [reflexivity | exact IH]. Qed.

Lemma allMatches_match (r : regex) (x tail : string) (adj : bool)
  (o : outcome) :
  matchAt r (x ++ tail) = Some o -> consumed o = x -> x <> "" ->
  allMatches r 0 adj (x ++ tail) = submatches r o :: allMatches r 0 true tail.
Proof.
  intros M C N. destruct x as [|a x]; [now contradiction N|].
  cbn [append allMatches]. cbn [append] in M. rewrite M, C.
  cbn [String.length]. now rewrite allMatches_skip.
Qed.

(** The flag of [allMatches] only matters for empty matches, which the
    message pattern does not have. *)
Lemma allMatches_messageRe_adj (s : string) :
  forall k adj, allMatches messageRe k adj s = allMatches messageRe k false s.
Proof.
  induction s as [|a s IH]; intros k adj.
  - destruct k; [|reflexivity]. cbn [allMatches].
    destruct (matchAt messageRe "") as [o|] eqn:M; [|reflexivity].
    discriminate M.
  - destruct k; cbn [allMatches]; [|apply IH].
    destruct (matchAt messageRe (String a s)) as [o|] eqn:M; [|reflexivity].
    destruct (String.length (consumed o)) eqn:L; [|reflexivity].
    exfalso. apply matchAt_matches, messageRe_nonempty in M.
    destruct (consumed o); [now contradiction M | discriminate L].
Qed.

Lemma space_not_word (a : ascii) : space a = true -> word a = false.
Proof.
  intros S. destruct (word a) eqn:W; [|reflexivity].
  destruct a as [[] [] [] [] [] [] [] []]; discriminate.
Qed.

Lemma run_seq_nil (r1 r2 : regex) (caps : captures) (s : string) :
  run r1 caps s = [] -> run (Seq r1 r2) caps s = [].
Proof. cbn [run]. now intros ->. Qed.

Lemma run_seq_single (r1 r2 : regex) (caps : captures) (s : string)
  (o1 : outcome) :
  run r1 caps s = [o1] -> run r2 (capsOf o1) (rest o1) = [] ->
  run (Seq r1 r2) caps s = [].
Proof. cbn [run]. intros -> E. cbn [flat_map]. now rewrite E. Qed.

Lemma run_lit_other (l : string) (a : ascii) (s : string) (caps : captures) :
  a <> "<"%char -> run (Lit (String "<" l)) caps (String a s) = [].
Proof.
  intros N. cbn [run prefix].
  destruct (ascii_dec "<" a) as [E | _]; [now contradiction N | reflexivity].
Qed.

Lemma run_opt_nil (r : regex) (caps : captures) (s : string) :
  run r caps s = [] -> run (Opt r) caps s = [("", caps, s)].
Proof. cbn [run]. now intros ->. Qed.

(** The message pattern does not match at a white-space byte. *)
Lemma no_match_at_space (a : ascii) (s : string) :
  space a = true -> matchAt messageRe (String a s) = None.
Proof.
  intros S. pose proof (space_not_word a S) as W.
  pose proof (space_not_lt a S) as N.
  unfold matchAt, messageRe.
  rewrite run_seq_nil; [reflexivity|]. unfold messageHead.
  apply (run_seq_single _ _ _ _ ("", [], String a s)).
  { apply run_opt_nil, run_lit_other, N. }
  apply (run_seq_single _ _ _ _ ("", [], String a s)).
  { apply run_opt_nil. cbn [run plusSplits]. now rewrite W. }
  apply run_seq_nil, run_lit_other, N.
Qed.

Lemma allMatches_separator (sep tail : string) (adj : bool) :
  forallb_string space sep = true ->
  allMatches messageRe 0 adj (sep ++ tail) = allMatches messageRe 0 false tail.
Proof.
  intros F. induction sep as [|a sep IH].
  - apply allMatches_messageRe_adj.
  - cbn [forallb_string] in F. apply andb_true_iff in F as [S F].
    cbn [append allMatches]. rewrite (no_match_at_space a _ S).
    rewrite <- (IH F). symmetry. apply allMatches_messageRe_adj.
Qed.

Lemma render_nonempty (cfg : ParserConfig) (m : Message) (tail : string) :
  render cfg m ++ tail <> "".
Proof.
  unfold render. destruct (Role m =? DefaultRole cfg); discriminate.
Qed.

(** The matches found in a transcript are the groups of its messages. *)
Lemma FindAll_transcript (cfg : ParserConfig) (sep : string)
  (ms : list Message) :
  forallb_string space sep = true ->
  (forall m, In m ms -> renderable cfg m = true) ->
  FindAllStringSubmatch messageRe (transcript cfg sep ms)
  = map (groupsOf cfg) ms.
Proof.
  intros S. unfold FindAllStringSubmatch.
  induction ms as [|m ms IH]; intros R; [reflexivity|].
  cbn [transcript map].
  destruct (render_first cfg m (sep ++ transcript cfg sep ms)
              (R m (or_introl eq_refl))) as [o [M [C [_ [G _]]]]].
  rewrite (allMatches_match messageRe _ _ false o M C).
  - rewrite G, allMatches_messageRe_adj, (allMatches_separator _ _ _ S).
    rewrite IH; [reflexivity|]. intros x I. apply R. now right.
  - intros E. apply (render_nonempty cfg m ""). now rewrite E.
Qed.

Lemma map_fullMessage_groupsOf (p : Parser) (cfg : ParserConfig)
  (ms : list Message) :
  config p = cfg ->
  (forall m, In m ms -> renderable cfg m = true) ->
  map (fullMessage p) (map (groupsOf cfg) ms) = ms.
Proof.
  intros Hcfg R. induction ms as [|m ms IH]; [reflexivity|].
  cbn [map]. rewrite (fullMessage_groupsOf p cfg m Hcfg (R m (or_introl eq_refl))).
  rewrite IH; [reflexivity|]. intros x I. apply R. now right.
Qed.

(** X14. Writing renderable messages out as Harmony text, each followed by
    the same run of white space (possibly none), and parsing that text
    gives the messages back, all of them, in order and field for field,
    with no error; a strict parser needs their channels to be known
    ones. *)
Theorem render_then_parse (cfg : ParserConfig) (sep : string)
  (ms : list Message) :
  let p := NewParserWithConfig cfg in
  forallb_string space sep = true ->
  (forall m, In m ms -> renderable cfg m = true) ->
  (StrictMode cfg = false \/
   forall m, In m ms -> isValidChannel (Channel m) = true) ->
  ParseResponse p (transcript cfg sep ms) = (ms, None).
Proof.
  intros p. made_by cfg p.
  intros S R V.
  rewrite (ParseResponse_unfold p _ Hm Hc).
  unfold ParseResponse_withoutChannelPattern.
  destruct ms as [|m ms]; [reflexivity|].
  assert (N : (transcript cfg sep (m :: ms) =? "") = false).
  { apply String.eqb_neq. cbn [transcript]. apply render_nonempty. }
  rewrite N, Hm, (FindAll_transcript cfg sep (m :: ms) S R).
  pose proof (map_fullMessage_groupsOf p cfg (m :: ms) Hcfg R) as E.
  assert (C : collect p fullMessage (map (groupsOf cfg) (m :: ms)) []
              = inl (m :: ms)).
  { destruct (StrictMode (config p)) eqn:St.
    - rewrite (collect_strict_ok p fullMessage _ [] St); rewrite E;
        [reflexivity|].
      destruct (find invalid (m :: ms)) as [x|] eqn:F; [|reflexivity].
      apply find_some in F as [I F]. unfold invalid in F.
      rewrite Hcfg in St. destruct V as [V | V]; [congruence|].
      rewrite (V x I) in F. discriminate F.
    - rewrite (collect_relaxed p fullMessage _ [] St). now rewrite E. }
  rewrite C. reflexivity.
Qed.

Lemma render_then_parse_witness :
  ParseResponse NewParser
    (transcript DefaultConfig (String "010" "")
       [{| Role := "assistant"; Channel := "analysis"; Content := "thinking";
           To := ""; IsCall := false |};
        {| Role := "system"; Channel := "commentary"; Content := "{}";
           To := "functions.f"; IsCall := true |}])
  = ([{| Role := "assistant"; Channel := "analysis"; Content := "thinking";
         To := ""; IsCall := false |};
      {| Role := "system"; Channel := "commentary"; Content := "{}";
         To := "functions.f"; IsCall := true |}], None).
Proof.
  apply (render_then_parse DefaultConfig (String "010" "")).
  - reflexivity.
  - intros m [<- | [<- | []]]; reflexivity.
  - left. reflexivity.
Defined.

(** ** Calls found in the raw text, and what strictness changes *)

Lemma firstCall_none_or_some (msgs : list Message) :
  firstCall msgs = None \/ exists name args, firstCall msgs = Some (name, args).
Proof.
  destruct (firstCall msgs) as [[name args]|]; [right; eauto | now left].
Qed.

(** X15. When [ParseResponse] does not fail, [ExtractFunctionCall] reports
    a call as soon as the FUNCTION_CALL pattern matches somewhere in the
    raw text, be it inside the content of a message; when [ParseResponse]
    fails it reports none, whatever the text holds. *)
Theorem ExtractFunctionCall_found (cfg : ParserConfig) (content : string) :
  let p := NewParserWithConfig cfg in
  (snd (ParseResponse p content) = None ->
   FindStringSubmatch (functionPattern p) content <> None ->
   snd (ExtractFunctionCall p content) = true) /\
  (snd (ParseResponse p content) <> None ->
   ExtractFunctionCall p content = ("", "", false)).
Proof.
  intros p. unfold ExtractFunctionCall.
  destruct (ParseResponse p content) as [msgs [e|]]; cbn [snd]; split.
  - discriminate.
  - reflexivity.
  - intros _ F.
    destruct (firstCall_none_or_some msgs) as [-> | [name [args ->]]];
      [|reflexivity].
    destruct (FindStringSubmatch (functionPattern p) content);
      [reflexivity | now contradiction F].
  - intros N. now contradiction N.
Qed.

Lemma ExtractFunctionCall_found_witness :
  snd (ExtractFunctionCall NewParser
         "<|channel|>final<|message|>FUNCTION_CALL: f(x)<|end|>") = true /\
  ExtractFunctionCall
    (NewParserWithConfig {| StrictMode := true; DefaultRole := "assistant" |})
    "<|channel|>commentary to=functions.f<|message|>x<|call|><|channel|>bogus<|message|>y"
  = ("", "", false).
Proof.
  split.
  - apply (ExtractFunctionCall_found DefaultConfig
             "<|channel|>final<|message|>FUNCTION_CALL: f(x)<|end|>").
    + reflexivity.
    + vm_compute. discriminate.
  - apply (ExtractFunctionCall_found
             {| StrictMode := true; DefaultRole := "assistant" |}).
    vm_compute. discriminate.
Defined.

Lemma strict_result_is_relaxed (ps pr : Parser) (content : string) :
  messagePattern ps = messageRe -> channelPattern ps = channelRe ->
  messagePattern pr = messageRe -> channelPattern pr = channelRe ->
  functionPattern ps = functionPattern pr ->
  StrictMode (config ps) = true -> StrictMode (config pr) = false ->
  DefaultRole (config ps) = DefaultRole (config pr) ->
  fst (ParseResponse ps content) <> [] ->
  ParseResponse pr content = ParseResponse ps content.
Proof.
  intros Hms Hcs Hmr Hcr Hf Ss Sr Hd.
  rewrite (ParseResponse_unfold ps content Hms Hcs).
  rewrite (ParseResponse_unfold pr content Hmr Hcr).
  unfold ParseResponse_withoutChannelPattern.
  destruct (content =? ""); [reflexivity|].
  rewrite Hms, Hmr.
  rewrite (collect_strict_find ps fullMessage _ _ Ss).
  rewrite (collect_relaxed pr fullMessage _ _ Sr).
  assert (EM : forall ms, map (fullMessage pr) ms = map (fullMessage ps) ms).
  { intros ms. apply map_ext. intros mt. unfold fullMessage. now rewrite Hd. }
  destruct (find invalid _) as [bad|]; [intros N; now contradiction N|].
  cbn [app fst]. rewrite EM.
  destruct (map (fullMessage ps) _) as [|m msgs].
  - unfold legacyStep. cbn [List.length Nat.eqb andb]. rewrite Hf.
    destruct (strings.Contains content "FUNCTION_CALL:").
    + destruct (FindStringSubmatch (functionPattern pr) content) as [mt|].
      * intros _. unfold legacyMessage. now rewrite Hd.
      * unfold plainStep. cbn [List.length Nat.eqb andb]. rewrite Ss.
        intros N. now contradiction N.
    + unfold plainStep. cbn [List.length Nat.eqb andb]. rewrite Ss.
      intros N. now contradiction N.
  - intros _. now rewrite !plainStep_legacyStep_nonempty.
Qed.

(** X16. Strictness only gates: whenever a strict parser returns at least
    one message, a relaxed parser with the same default role returns the
    same messages and no error. *)
Theorem strict_agrees_with_relaxed (role content : string) :
  let ps := NewParserWithConfig {| StrictMode := true; DefaultRole := role |} in
  let pr := NewParserWithConfig {| StrictMode := false; DefaultRole := role |} in
  fst (ParseResponse ps content) <> [] ->
  ParseResponse pr content = ParseResponse ps content /\
  snd (ParseResponse pr content) = None.
Proof.
  intros ps pr N. split.
  - exact (strict_result_is_relaxed ps pr content eq_refl eq_refl eq_refl
             eq_refl eq_refl eq_refl eq_refl eq_refl N).
  - exact (ParseResponse_relaxed pr content eq_refl).
Qed.

Lemma strict_agrees_with_relaxed_witness :
  ParseResponse
    (NewParserWithConfig {| StrictMode := false; DefaultRole := "assistant" |})
    "<|channel|>final<|message|>Hi<|end|>"
  = ParseResponse
      (NewParserWithConfig {| StrictMode := true; DefaultRole := "assistant" |})
      "<|channel|>final<|message|>Hi<|end|>".
Proof.
  apply (strict_agrees_with_relaxed "assistant"
           "<|channel|>final<|message|>Hi<|end|>").
  vm_compute. discriminate.
Defined.

(** ** Text without a message marker *)

Lemma Contains_append_r (a b pat : string) :
  strings.Contains b pat = true -> strings.Contains (a ++ b) pat = true.
Proof.
  intros H. rewrite <- (append_nil_r b). now apply Contains_inside.
Qed.

(** Every match of the message pattern holds the message marker. *)
Lemma messageRe_has_marker (t : string) (o : outcome) :
  matches messageRe [] t o -> strings.Contains t "<|message|>" = true.
Proof.
  unfold messageRe, messageHead. intros M.
  repeat match goal with
         | H : matches (Seq _ _) _ _ _ |- _ => inversion H; subst; clear H
         end.
  match goal with
  | H : matches (Lit "<|message|>") _ _ _ |- _ => inversion H; subst; clear H
  end.
  repeat match goal with
         | H : matches _ _ _ _ |- _ =>
             apply matches_split in H;
             unfold consumed, rest in H; cbn [fst snd] in H
         end.
  subst.
  repeat first
    [ solve [ apply (Contains_suffix "<|message|>" _ _ (suffixOf_refl _));
              apply prefix_append ]
    | apply Contains_append_r ].
Qed.

Lemma no_marker_no_match (content : string) :
  strings.Contains content "<|message|>" = false ->
  FindAllStringSubmatch messageRe content = [].
Proof.
  intros C.
  destruct (FindAllStringSubmatch messageRe content) as [|mt more] eqn:E;
    [reflexivity|].
  exfalso.
  destruct (FindAll_nonempty messageRe content) as [t [o [[pre ->] M]]].
  { rewrite E. discriminate. }
  apply matchAt_matches, messageRe_has_marker in M.
  apply (Contains_append_r pre) in M. congruence.
Qed.

Lemma prefix_Contains (pat s : string) :
  prefix pat s = true -> strings.Contains s pat = true.
Proof. intros P. rewrite Contains_unfold, P. reflexivity. Qed.

(** X17. A non-empty text that holds neither the message marker nor
    "FUNCTION_CALL:" is, for a relaxed parser, one final-channel message
    whose content is the text as it stands, other markers included (a
    channel marker of the analysis channel, say, in a text cut short), and
    [ExtractFinalMessage] returns the text unchanged. *)
Theorem ParseResponse_without_message_marker (cfg : ParserConfig)
  (content : string) :
  let p := NewParserWithConfig cfg in
  StrictMode cfg = false -> content <> "" ->
  strings.Contains content "<|message|>" = false ->
  strings.Contains content "FUNCTION_CALL:" = false ->
  ParseResponse p content =
  ([{| Role := DefaultRole cfg; Channel := ChannelFinal; Content := content;
       To := ""; IsCall := false |}], None) /\
  ExtractFinalMessage p content = content.
Proof.
  intros p. made_by cfg p. rewrite <- Hcfg.
  change {| Role := DefaultRole (config p); Channel := ChannelFinal;
            Content := content; To := ""; IsCall := false |}
    with (plainMessage p content).
  intros R N C F.
  assert (E : ParseResponse p content = ([plainMessage p content], None)).
  { rewrite (ParseResponse_unfold p content Hm Hc).
    unfold ParseResponse_withoutChannelPattern.
    apply String.eqb_neq in N. rewrite N, Hm, (no_marker_no_match content C).
    cbn [collect]. unfold legacyStep, plainStep.
    rewrite F, R, N. reflexivity. }
  split; [exact E|].
  unfold ExtractFinalMessage. rewrite E.
  cbn [finalOf List.length Nat.eqb orb firstFinal plainMessage Channel IsCall
         Content].
  unfold strings.HasPrefix.
  destruct (prefix "FUNCTION_CALL:" content) eqn:P; [|reflexivity].
  apply prefix_Contains in P. congruence.
Qed.

Lemma ParseResponse_without_message_marker_witness :
  ExtractFinalMessage NewParser "<|channel|>analysis" = "<|channel|>analysis".
Proof.
  apply (ParseResponse_without_message_marker DefaultConfig
           "<|channel|>analysis"); try reflexivity.
  discriminate.
Defined.

(** ** The streaming example *)



(** On the chunks of [simulateStream] itself the first parse, of a text cut
    before its message marker, yields the plain final message, and the
    loop shows it before the final content proper. *)
Example simulateStream_shown :
  snd (streamLoop NewParser simulateStream)
  = ("Based on my analysis, here's what I found: The answer is 42.",
     "User sees: " ++ "<|channel|>analysis" ++
     "Based on my analysis, here's what I found: The answer is 42.").
Proof. vm_compute. reflexivity. Qed.
